(** * Mall path optimizer: cost model, nearest-neighbour construction,
      2-opt refinement and the walking-time lookup

    A shallow embedding of [view_mall.py] (the route engine) and of
    [calculate_walking_time_between_2_shops.py] (the lookup by name).

    Conventions of the embedding.
    - Python [float] values are idealised as real numbers ([R]); rounding,
      infinities and NaN are outside this main model.  Comparisons of
      reals are the booleans [Rltb] and [Reqb], obtained from the
      decidability of the order on [R].  What depends on rounding is
      settled on the module [Binary64], which repeats the engine over
      IEEE 754 binary64 numbers.
    - Python [int] values are [Z]; positions and indices produced by
      [range] and [len] are [nat], and so are the entries of the orders
      that the engine builds.  An order handed in by a caller may hold
      negative entries, which subscript [shops] from its end: the module
      [IntOrder] repeats [path_length] and [two_opt] on orders of
      integers.
    - A computation that may raise returns a [result]: [Ok v] for a normal
      return, [Raise e] for an exception.  Subscripting a list outside its
      bounds raises [IndexError], [min] of an empty sequence raises
      [ValueError], removing a missing member of a set raises [KeyError].
    - The list [order] that [two_opt] mutates in place is threaded through
      the loops as a value. *)

From Stdlib Require Import Ascii String.
From Stdlib Require Import List Permutation Arith ZArith Lia Bool.
From Stdlib Require Import Reals Lra.
From Stdlib Require Decimal DecimalString DecimalZ DecimalPos.
From Stdlib Require PrimFloat SpecFloat FloatOps.
Import ListNotations.

Open Scope R_scope.

(** ** Exceptions and the error monad *)

(** The exceptions the modelled code can raise.  [OverflowError] is raised
    by the conversion of an integer to a float, and only the binary64
    model has it.  [FuelExhausted] is not a Python exception: it marks a
    [while] loop of the model that ran out of its bound, and is shown
    never to occur. *)
Inductive exn : Type :=
| IndexError
| ValueError
| KeyError
| OverflowError
| FuelExhausted.

Inductive result (A : Type) : Type :=
| Ok (a : A)
| Raise (e : exn).

Arguments Ok {A} a.
Arguments Raise {A} e.

Definition bind {A B : Type} (m : result A) (k : A -> result B) : result B :=
  match m with
  | Ok a => k a
  | Raise e => Raise e
  end.

Notation "x <- m ;; k" := (bind m (fun x => k))
  (at level 61, m at next level, right associativity).
Notation "' p <- m ;; k" := (bind m (fun p => k))
  (at level 61, p pattern, m at next level, right associativity).

(** [for x in l: st = body(x, st)], stopping at the first exception. *)
Fixpoint for_each {A S : Type} (body : A -> S -> result S) (l : list A) (st : S)
  : result S :=
  match l with
  | [] => Ok st
  | a :: l' => st' <- body a st ;; for_each body l' st'
  end.

(** [l[i]] for a position [i >= 0]. *)
Definition get {A : Type} (l : list A) (i : nat) : result A :=
  match nth_error l i with
  | Some a => Ok a
  | None => Raise IndexError
  end.

(** [range(lo, hi)] *)
Definition range (lo hi : nat) : list nat := seq lo (hi - lo).

(** ** Comparisons of floats, read as reals *)

Definition Rltb (a b : R) : bool := if Rlt_dec a b then true else false.
Definition Reqb (a b : R) : bool := if Req_dec_T a b then true else false.

(** ** Data structures *)

Record Shop : Type := mkShop {
  name : string;
  floor : Z;
  x : R;
  y : R
}.

(** ** Distance model *)

(** [math.hypot(dx, dy)], the Euclidean norm. *)
Definition hypot (dx dy : R) : R := sqrt (dx * dx + dy * dy).

Definition step_cost (a b : Shop) (floor_penalty : R) : R :=
  let dx := x a - x b in
  let dy := y a - y b in
  let horizontal := hypot dx dy in
  let vertical_penalty := floor_penalty * IZR (Z.abs (floor a - floor b)) in
  horizontal + vertical_penalty.

(** [sum(step_cost(shops[order[i]], shops[order[i + 1]], floor_penalty)
        for i in range(len(order) - 1))]: the accumulator starts at 0 and
    the terms are added from the left. *)
Definition path_length (order : list nat) (shops : list Shop) (floor_penalty : R)
  : result R :=
  for_each
    (fun i acc =>
       oi <- get order i ;;
       a <- get shops oi ;;
       oj <- get order (i + 1) ;;
       b <- get shops oj ;;
       Ok (acc + step_cost a b floor_penalty))
    (range 0 (length order - 1)) 0.

(** ** Nearest-neighbour construction *)

(** Comparison [ka < kb] of the tuples [(floor, x, y)]: the first
    component that differs decides. *)
Definition key_ltb (ka kb : Z * R * R) : bool :=
  let '(fa, xa, ya) := ka in
  let '(fb, xb, yb) := kb in
  if negb (fa =? fb)%Z then (fa <? fb)%Z
  else if negb (Reqb xa xb) then Rltb xa xb
  else if negb (Reqb ya yb) then Rltb ya yb
  else false.

(** The scan of [min(iterable, key=...)]: the candidate replaces the best
    element seen so far only when its key is strictly smaller, so that the
    first minimal element of the iteration wins. *)
Fixpoint min_scan {A K : Type} (key : A -> result K) (lt : K -> K -> bool)
  (best : A) (best_key : K) (l : list A) : result A :=
  match l with
  | [] => Ok best
  | c :: l' =>
      kc <- key c ;;
      if lt kc best_key then min_scan key lt c kc l'
      else min_scan key lt best best_key l'
  end.

Definition py_min {A K : Type} (key : A -> result K) (lt : K -> K -> bool)
  (l : list A) : result A :=
  match l with
  | [] => Raise ValueError
  | a :: l' => ka <- key a ;; min_scan key lt a ka l'
  end.

(** The set [unvisited] is the list of its members in iteration order.
    For the set [set(range(n))] of small integers CPython iterates in
    increasing order, and [remove] keeps the order of the others. *)
Definition set_remove (k : nat) (s : list nat) : result (list nat) :=
  if existsb (Nat.eqb k) s then Ok (filter (fun j => negb (Nat.eqb j k)) s)
  else Raise KeyError.

(** The loop [while unvisited: ...].  Every iteration removes one member
    of [unvisited]; [fuel] bounds the number of iterations. *)
Fixpoint nn_loop (fuel : nat) (shops : list Shop) (floor_penalty : R)
  (current : nat) (unvisited order : list nat) : result (list nat) :=
  match unvisited with
  | [] => Ok order
  | _ :: _ =>
      match fuel with
      | O => Raise FuelExhausted
      | S fuel' =>
          next_idx <- py_min
                        (fun j =>
                           a <- get shops current ;;
                           b <- get shops j ;;
                           Ok (step_cost a b floor_penalty))
                        Rltb unvisited ;;
          unvisited' <- set_remove next_idx unvisited ;;
          nn_loop fuel' shops floor_penalty next_idx unvisited'
            (order ++ [next_idx])
      end
  end.

Definition nearest_neighbor (shops : list Shop) (floor_penalty : R)
  : result (list nat) :=
  let n := length shops in
  if Nat.eqb n 0 then Ok []
  else
    start <- py_min
               (fun i => s <- get shops i ;; Ok (floor s, x s, y s))
               key_ltb (range 0 n) ;;
    unvisited <- set_remove start (range 0 n) ;;
    nn_loop (length unvisited) shops floor_penalty start unvisited [start].

(** ** 2-opt refinement *)

(** [l[lo:hi] = reversed(l[lo:hi])] *)
Definition reverse_slice {A : Type} (l : list A) (lo hi : nat) : list A :=
  firstn lo l ++ rev (firstn (hi - lo) (skipn lo l)) ++ skipn (Nat.max lo hi) l.

(** [shops[order[i]]] *)
Definition shop_at (order : list nat) (shops : list Shop) (i : nat)
  : result Shop :=
  k <- get order i ;; get shops k.

Definition seg_cost (order : list nat) (shops : list Shop) (floor_penalty : R)
  (i1 i2 j1 j2 : nat) : result R :=
  a <- shop_at order shops i1 ;;
  b <- shop_at order shops i2 ;;
  c <- shop_at order shops j1 ;;
  d <- shop_at order shops j2 ;;
  Ok (step_cost a b floor_penalty + step_cost c d floor_penalty).

(** The tolerance [1e-9] of the improvement test, read as the real number
    one billionth.  The literal itself is the binary64 number nearest to
    it, [Binary64.tolerance] below. *)
Definition tolerance : R := / 1000000000.

(** The body of the two nested loops, on the state [(order, improved)]. *)
Definition try_reverse (shops : list Shop) (floor_penalty : R) (i j : nat)
  (st : list nat * bool) : result (list nat * bool) :=
  let '(order, improved) := st in
  before <- seg_cost order shops floor_penalty i (i + 1) j (j + 1) ;;
  after <- seg_cost order shops floor_penalty i j (i + 1) (j + 1) ;;
  if Rltb (after + tolerance) before
  then Ok (reverse_slice order (i + 1) (j + 1), true)
  else Ok (order, improved).

(** One iteration of the [while] loop: [improved = False], then the scan
    of all pairs [(i, j)]. *)
Definition two_opt_pass (shops : list Shop) (floor_penalty : R) (n : nat)
  (order : list nat) : result (list nat * bool) :=
  for_each
    (fun i st =>
       for_each (try_reverse shops floor_penalty i) (range (i + 2) (n - 1)) st)
    (range 0 (n - 3)) (order, false).

(** [while improved and passes < max_passes], with [budget] the number
    [max_passes - passes] of passes still allowed. *)
Fixpoint two_opt_while (shops : list Shop) (floor_penalty : R) (n : nat)
  (budget : nat) (st : list nat * bool) : result (list nat * bool) :=
  let '(order, improved) := st in
  if improved then
    match budget with
    | O => Ok st
    | S budget' =>
        st' <- two_opt_pass shops floor_penalty n order ;;
        two_opt_while shops floor_penalty n budget' st'
    end
  else Ok st.

(** The run of [two_opt] up to its [return]: the final order and the
    final value of the variable [improved]. *)
Definition two_opt_run (order : list nat) (shops : list Shop)
  (floor_penalty : R) (max_passes : Z) : result (list nat * bool) :=
  let n := length order in
  if Nat.ltb n 4 then Ok (order, true)
  else two_opt_while shops floor_penalty n (Z.to_nat max_passes) (order, true).

Definition two_opt (order : list nat) (shops : list Shop) (floor_penalty : R)
  (max_passes : Z) : result (list nat) :=
  st <- two_opt_run order shops floor_penalty max_passes ;; Ok (fst st).

Definition default_max_passes : Z := 20.

Definition compute_efficient_path (shops : list Shop) (floor_penalty : R)
  : result (list nat * R) :=
  init <- nearest_neighbor shops floor_penalty ;;
  improved <- two_opt init shops floor_penalty default_max_passes ;;
  total <- path_length improved shops floor_penalty ;;
  Ok (improved, total).

(** ** The plot of the tour *)

(** The values handed to the plotting library as keyword arguments. *)
#[warnings="-register-all"]
Inductive pyval : Type :=
| PStr (s : string)
| PInt (z : Z)
| PFloat (r : R)
| PList (l : list pyval)
| PDict (d : list (string * pyval)).

(** [l[i]] for an integer [i]: a negative [i] counts from the end. *)
Definition py_item {A : Type} (l : list A) (i : Z) : result A :=
  if (0 <=? i)%Z then get l (Z.to_nat i)
  else if (- Z.of_nat (length l) <=? i)%Z
       then get l (Z.to_nat (Z.of_nat (length l) + i))
       else Raise IndexError.

(** [[f(a) for a in l]], stopping at the first exception. *)
Fixpoint comprehension {A B : Type} (f : A -> result B) (l : list A)
  : result (list B) :=
  match l with
  | [] => Ok []
  | a :: l' => b <- f a ;; bs <- comprehension f l' ;; Ok (b :: bs)
  end.

Section Plot.

(** The plotting library is a parameter: the type of figures, the empty
    figure [go.Figure()], and [fig.add_trace] of a [go.Scatter3d] and
    [fig.update_layout] as functions from a figure and the keyword
    arguments to a figure.  So is the formatting of floats in the
    f-strings of the hover text of a shop and of the title. *)
Variable Figure : Type.
Variable go_Figure : Figure.
Variable add_trace : Figure -> list (string * pyval) -> Figure.
Variable update_layout : Figure -> list (string * pyval) -> Figure.
Variable hover_text : Shop -> string.
Variable title_text : R -> string.

(** The figure on which [view_mall_efficient] calls [show()]. *)
Definition view_mall_efficient (shops : list Shop) (floor_penalty : R)
  : result Figure :=
  ' (order, total) <- compute_efficient_path shops floor_penalty ;;
  let fig := go_Figure in
  let fig :=
    add_trace fig
      [("x", PList (map (fun s => PFloat (x s)) shops));
       ("y", PList (map (fun s => PFloat (y s)) shops));
       ("z", PList (map (fun s => PInt (floor s)) shops));
       ("mode", PStr "markers+text");
       ("text", PList (map (fun s => PStr (name s)) shops));
       ("textposition", PStr "top center");
       ("marker", PDict [("size", PInt 6); ("opacity", PFloat (8 / 10))]);
       ("name", PStr "Shops");
       ("hovertext", PList (map (fun s => PStr (hover_text s)) shops));
       ("hoverinfo", PStr "text")]%string in
  path_x <- comprehension (fun i => s <- get shops i ;; Ok (PFloat (x s))) order ;;
  path_y <- comprehension (fun i => s <- get shops i ;; Ok (PFloat (y s))) order ;;
  path_z <- comprehension (fun i => s <- get shops i ;; Ok (PInt (floor s))) order ;;
  let fig :=
    add_trace fig
      [("x", PList path_x);
       ("y", PList path_y);
       ("z", PList path_z);
       ("mode", PStr "lines+markers");
       ("line", PDict [("width", PInt 6)]);
       ("marker", PDict [("size", PInt 3)]);
       ("name", PStr "Walking path");
       ("hoverinfo", PStr "skip")]%string in
  start <- py_item order 0 ;;
  end_ <- py_item order (-1) ;;
  sx <- get shops start ;;
  sy <- get shops start ;;
  sz <- get shops start ;;
  let fig :=
    add_trace fig
      [("x", PList [PFloat (x sx)]);
       ("y", PList [PFloat (y sy)]);
       ("z", PList [PInt (floor sz)]);
       ("mode", PStr "markers+text");
       ("text", PList [PStr "START"]);
       ("textposition", PStr "bottom center");
       ("marker", PDict [("size", PInt 8); ("symbol", PStr "diamond")]);
       ("name", PStr "Start");
       ("hoverinfo", PStr "skip")]%string in
  ex <- get shops end_ ;;
  ey <- get shops end_ ;;
  ez <- get shops end_ ;;
  let fig :=
    add_trace fig
      [("x", PList [PFloat (x ex)]);
       ("y", PList [PFloat (y ey)]);
       ("z", PList [PInt (floor ez)]);
       ("mode", PStr "markers+text");
       ("text", PList [PStr "END"]);
       ("textposition", PStr "bottom center");
       ("marker", PDict [("size", PInt 8); ("symbol", PStr "x")]);
       ("name", PStr "End");
       ("hoverinfo", PStr "skip")]%string in
  let fig :=
    update_layout fig
      [("title", PStr (title_text total));
       ("scene", PDict [("xaxis_title", PStr "X"); ("yaxis_title", PStr "Y");
                        ("zaxis_title", PStr "Floor")]);
       ("legend", PDict [("orientation", PStr "h"); ("yanchor", PStr "bottom");
                         ("y", PFloat (102 / 100)); ("xanchor", PStr "right");
                         ("x", PInt 1)]);
       ("margin", PDict [("l", PInt 0); ("r", PInt 0); ("t", PInt 60);
                         ("b", PInt 0)])]%string in
  Ok fig.

End Plot.

(** ** Lookup by name and walking time *)

Module Mall.

Record t : Type := mk {
  num_floors : Z;
  num_shops_per_floor : Z;
  shops : list Shop
}.

(** [None] is Python's [None]: no shop of that name. *)
Definition get_shop_coordinates (self : t) (shop_name : string)
  : option (R * R * Z) :=
  match find (fun shop => String.eqb (name shop) shop_name) (shops self) with
  | Some shop => Some (x shop, y shop, floor shop)
  | None => None
  end.

(** What [calculate_walking_time] returns: a message or a number. *)
Inductive answer : Type :=
| Message (s : string)
| Seconds (r : R).

Definition elevator_time : R := 30.

Definition calculate_walking_time (self : t) (shop1_name shop2_name : string)
  : answer :=
  match get_shop_coordinates self shop1_name,
        get_shop_coordinates self shop2_name with
  | Some (x1, y1, f1), Some (x2, y2, f2) =>
      if negb (f1 =? f2)%Z
      then Seconds (Rabs (x1 - x2) + Rabs (y1 - y2) + elevator_time)
      else Seconds (Rabs (x1 - x2) + Rabs (y1 - y2))
  | _, _ => Message "Shop not found."%string
  end.

(** [Mall(num_floors, num_shops_per_floor)]: a mall without shops. *)
Definition init (num_floors num_shops_per_floor : Z) : t :=
  mk num_floors num_shops_per_floor [].

(** The generator behind the module [random]: the stream of the numbers
    that [random.random()] returns, each in [0, 1), and the number of
    draws made so far. *)
Record rng : Type := mk_rng {
  stream : nat -> R;
  drawn : nat
}.

Definition random (g : rng) : R * rng :=
  (stream g (drawn g), mk_rng (stream g) (S (drawn g))).

(** [random.uniform(a, b)] is [a + (b - a) * random()]. *)
Definition uniform (a b : R) (g : rng) : R * rng :=
  let '(u, g') := random g in (a + (b - a) * u, g').

(** [str(n)] for an integer: its decimal digits, after a minus sign when
    it is negative. *)
Definition py_str (n : Z) : string :=
  DecimalString.NilZero.string_of_int (Z.to_int n).

(** [range(lo, hi)] over integers. *)
Definition zrange (lo hi : Z) : list Z :=
  map (fun k => (lo + Z.of_nat k)%Z) (seq 0 (Z.to_nat (hi - lo))).

(** [f'Shop_{floor}_{shop_id}'] *)
Definition shop_name (floor shop_id : Z) : string :=
  ("Shop_" ++ py_str floor ++ "_" ++ py_str shop_id)%string.

(** The body of the inner loop of [generate_mall], on the state made of
    the list [self.shops] and the generator. *)
Definition add_shop (floor shop_id : Z) (st : list Shop * rng)
  : list Shop * rng :=
  let '(shops, g) := st in
  let '(x, g1) := uniform 0 100 g in
  let '(y, g2) := uniform 0 100 g1 in
  (shops ++ [mkShop (shop_name floor shop_id) floor x y], g2).

Definition generate_mall (self : t) (g : rng) : t * rng :=
  let '(shops', g') :=
    fold_left
      (fun st floor =>
         fold_left (fun st shop_id => add_shop floor shop_id st)
           (zrange 1 (num_shops_per_floor self + 1)) st)
      (zrange 1 (num_floors self + 1)) (shops self, g) in
  (mk (num_floors self) (num_shops_per_floor self) shops', g').

(** The shop made for [floor] and [shop_id] from the draws number [k] and
    [k + 1] of the stream [s]. *)
Definition drawn_shop (s : nat -> R) (floor shop_id : Z) (k : nat) : Shop :=
  mkShop (shop_name floor shop_id) floor
    (0 + (100 - 0) * s k) (0 + (100 - 0) * s (S k)).

(** The shop that [generate_mall] makes for [floor] and [shop_id] when
    [d] draws were made before the call, on a mall of [per_floor] shops a
    floor: the shops of the floors below and of the smaller identifiers
    each took two draws. *)
Definition generated_shop (per_floor : Z) (s : nat -> R) (d : nat)
  (floor shop_id : Z) : Shop :=
  drawn_shop s floor shop_id
    (d + 2 * Z.to_nat ((floor - 1) * per_floor + (shop_id - 1)))%nat.

(** The shops that a call of [generate_mall] appends to [self.shops]. *)
Definition generated_shops (self : t) (g : rng) : list Shop :=
  flat_map
    (fun floor =>
       map (generated_shop (num_shops_per_floor self) (stream g) (drawn g) floor)
         (zrange 1 (num_shops_per_floor self + 1)))
    (zrange 1 (num_floors self + 1)).

(** The character [c] does not occur in the string. *)
Fixpoint free_of (c : Ascii.ascii) (str : string) : Prop :=
  match str with
  | EmptyString => True
  | String a rest => a <> c /\ free_of c rest
  end.

End Mall.

(** ** Orders of integers *)

(** [path_length] and [two_opt] take any list of Python integers as
    [order], and a negative entry subscripts [shops] from its end.  Here
    an order is a list of integers and [shops[order[i]]] is [py_item];
    the positions [i] and [j] come from [range] and stay in [nat]. *)
Module IntOrder.

Definition path_length (order : list Z) (shops : list Shop) (floor_penalty : R)
  : result R :=
  for_each
    (fun i acc =>
       oi <- get order i ;;
       a <- py_item shops oi ;;
       oj <- get order (i + 1) ;;
       b <- py_item shops oj ;;
       Ok (acc + step_cost a b floor_penalty))
    (range 0 (length order - 1)) 0.

(** [shops[order[i]]] *)
Definition shop_at (order : list Z) (shops : list Shop) (i : nat)
  : result Shop :=
  k <- get order i ;; py_item shops k.

Definition seg_cost (order : list Z) (shops : list Shop) (floor_penalty : R)
  (i1 i2 j1 j2 : nat) : result R :=
  a <- shop_at order shops i1 ;;
  b <- shop_at order shops i2 ;;
  c <- shop_at order shops j1 ;;
  d <- shop_at order shops j2 ;;
  Ok (step_cost a b floor_penalty + step_cost c d floor_penalty).

Definition try_reverse (shops : list Shop) (floor_penalty : R) (i j : nat)
  (st : list Z * bool) : result (list Z * bool) :=
  let '(order, improved) := st in
  before <- seg_cost order shops floor_penalty i (i + 1) j (j + 1) ;;
  after <- seg_cost order shops floor_penalty i j (i + 1) (j + 1) ;;
  if Rltb (after + tolerance) before
  then Ok (reverse_slice order (i + 1) (j + 1), true)
  else Ok (order, improved).

Definition two_opt_pass (shops : list Shop) (floor_penalty : R) (n : nat)
  (order : list Z) : result (list Z * bool) :=
  for_each
    (fun i st =>
       for_each (try_reverse shops floor_penalty i) (range (i + 2) (n - 1)) st)
    (range 0 (n - 3)) (order, false).

Fixpoint two_opt_while (shops : list Shop) (floor_penalty : R) (n : nat)
  (budget : nat) (st : list Z * bool) : result (list Z * bool) :=
  let '(order, improved) := st in
  if improved then
    match budget with
    | O => Ok st
    | S budget' =>
        st' <- two_opt_pass shops floor_penalty n order ;;
        two_opt_while shops floor_penalty n budget' st'
    end
  else Ok st.

Definition two_opt_run (order : list Z) (shops : list Shop)
  (floor_penalty : R) (max_passes : Z) : result (list Z * bool) :=
  let n := length order in
  if Nat.ltb n 4 then Ok (order, true)
  else two_opt_while shops floor_penalty n (Z.to_nat max_passes) (order, true).

Definition two_opt (order : list Z) (shops : list Shop) (floor_penalty : R)
  (max_passes : Z) : result (list Z) :=
  st <- two_opt_run order shops floor_penalty max_passes ;; Ok (fst st).

End IntOrder.

(** ** The engine in binary64 *)

(** The engine over the numbers the interpreter computes with: a Python
    [float] is an IEEE 754 binary64 number, and [+], [-], [*], [abs] and
    the comparisons are the operations of that format, rounding to the
    nearest number, ties to even.  The control flow is that of the main
    model, and so are the conventions on positions and on the entries of
    an order. *)
Module Binary64.

Import PrimFloat.
Local Open Scope float_scope.

Record Shop : Type := mkShop {
  name : string;
  floor : Z;
  x : float;
  y : float
}.

(** The conversion of a Python integer to a float, as [float * int] makes
    it: the nearest binary64 number, ties to even, and [OverflowError]
    when the integer is too large for a finite one. *)
Definition float_of_int (k : Z) : result float :=
  let f :=
    FloatOps.SF2Prim
      (SpecFloat.binary_normalize FloatOps.prec FloatOps.emax k 0 false) in
  if is_finite f then Ok f else Raise OverflowError.

(** [math.hypot(dx, dy)].  On the axes the function is exact:
    [hypot(dx, 0) = |dx|] and [hypot(0, dy) = |dy|], and the statements
    about this module use shops with [y = 0] only, where the first branch
    answers.  Off the axes the library computes the square root of
    [dx * dx + dy * dy] as a whole, without overflow of the squares; the
    last branch rounds after every operation, so there it can differ from
    the library in the last places. *)
Definition hypot (dx dy : float) : float :=
  if is_zero dy then abs dx
  else if is_zero dx then abs dy
  else sqrt (dx * dx + dy * dy).

Definition step_cost (a b : Shop) (floor_penalty : float) : result float :=
  let dx := x a - x b in
  let dy := y a - y b in
  let horizontal := hypot dx dy in
  gap <- float_of_int (Z.abs (floor a - floor b)) ;;
  let vertical_penalty := floor_penalty * gap in
  Ok (horizontal + vertical_penalty).

(** [sum(...)]: the accumulator starts at 0 and every term is added to it
    from the left, with a rounding at each addition.  (This is [sum] up
    to CPython 3.11; from 3.12 on [sum] also carries the rounding errors
    of the additions along and adds them at the end.) *)
Definition path_length (order : list nat) (shops : list Shop)
  (floor_penalty : float) : result float :=
  for_each
    (fun i acc =>
       oi <- get order i ;;
       a <- get shops oi ;;
       oj <- get order (i + 1) ;;
       b <- get shops oj ;;
       c <- step_cost a b floor_penalty ;;
       Ok (acc + c))
    (range 0 (length order - 1)) 0.

Definition key_ltb (ka kb : Z * float * float) : bool :=
  let '(fa, xa, ya) := ka in
  let '(fb, xb, yb) := kb in
  if negb (fa =? fb)%Z then (fa <? fb)%Z
  else if negb (xa =? xb) then xa <? xb
  else if negb (ya =? yb) then ya <? yb
  else false.

Fixpoint nn_loop (fuel : nat) (shops : list Shop) (floor_penalty : float)
  (current : nat) (unvisited order : list nat) : result (list nat) :=
  match unvisited with
  | [] => Ok order
  | _ :: _ =>
      match fuel with
      | O => Raise FuelExhausted
      | S fuel' =>
          next_idx <- py_min
                        (fun j =>
                           a <- get shops current ;;
                           b <- get shops j ;;
                           step_cost a b floor_penalty)
                        ltb unvisited ;;
          unvisited' <- set_remove next_idx unvisited ;;
          nn_loop fuel' shops floor_penalty next_idx unvisited'
            (order ++ [next_idx])
      end
  end.

Definition nearest_neighbor (shops : list Shop) (floor_penalty : float)
  : result (list nat) :=
  let n := length shops in
  if Nat.eqb n 0 then Ok []
  else
    start <- py_min
               (fun i => s <- get shops i ;; Ok (floor s, x s, y s))
               key_ltb (range 0 n) ;;
    unvisited <- set_remove start (range 0 n) ;;
    nn_loop (length unvisited) shops floor_penalty start unvisited [start].

(** [shops[order[i]]] *)
Definition shop_at (order : list nat) (shops : list Shop) (i : nat)
  : result Shop :=
  k <- get order i ;; get shops k.

Definition seg_cost (order : list nat) (shops : list Shop)
  (floor_penalty : float) (i1 i2 j1 j2 : nat) : result float :=
  a <- shop_at order shops i1 ;;
  b <- shop_at order shops i2 ;;
  ab <- step_cost a b floor_penalty ;;
  c <- shop_at order shops j1 ;;
  d <- shop_at order shops j2 ;;
  cd <- step_cost c d floor_penalty ;;
  Ok (ab + cd).

(** The literal [1e-9]: the binary64 number nearest to one billionth. *)
Definition tolerance : float := 0x1.12e0be826d695p-30.

Definition try_reverse (shops : list Shop) (floor_penalty : float) (i j : nat)
  (st : list nat * bool) : result (list nat * bool) :=
  let '(order, improved) := st in
  before <- seg_cost order shops floor_penalty i (i + 1) j (j + 1) ;;
  after <- seg_cost order shops floor_penalty i j (i + 1) (j + 1) ;;
  if after + tolerance <? before
  then Ok (reverse_slice order (i + 1) (j + 1), true)
  else Ok (order, improved).

Definition two_opt_pass (shops : list Shop) (floor_penalty : float) (n : nat)
  (order : list nat) : result (list nat * bool) :=
  for_each
    (fun i st =>
       for_each (try_reverse shops floor_penalty i) (range (i + 2) (n - 1)) st)
    (range 0 (n - 3)) (order, false).

Fixpoint two_opt_while (shops : list Shop) (floor_penalty : float) (n : nat)
  (budget : nat) (st : list nat * bool) : result (list nat * bool) :=
  let '(order, improved) := st in
  if improved then
    match budget with
    | O => Ok st
    | S budget' =>
        st' <- two_opt_pass shops floor_penalty n order ;;
        two_opt_while shops floor_penalty n budget' st'
    end
  else Ok st.

Definition two_opt_run (order : list nat) (shops : list Shop)
  (floor_penalty : float) (max_passes : Z) : result (list nat * bool) :=
  let n := length order in
  if Nat.ltb n 4 then Ok (order, true)
  else two_opt_while shops floor_penalty n (Z.to_nat max_passes) (order, true).

Definition two_opt (order : list nat) (shops : list Shop)
  (floor_penalty : float) (max_passes : Z) : result (list nat) :=
  st <- two_opt_run order shops floor_penalty max_passes ;; Ok (fst st).

Definition compute_efficient_path (shops : list Shop) (floor_penalty : float)
  : result (list nat * float) :=
  init <- nearest_neighbor shops floor_penalty ;;
  improved <- two_opt init shops floor_penalty default_max_passes ;;
  total <- path_length improved shops floor_penalty ;;
  Ok (improved, total).

(** Four shops along one wall ([y = 0]); the last one is one floor up.
    The coordinates are integers that binary64 holds exactly:
    [9007199254740991] is [2^53 - 1] and [9007199254740994] is
    [2^53 + 2]. *)
Definition long_wall : list Shop :=
  [mkShop "W0" 0 1 0;
   mkShop "W1" 0 9007199254740991 0;
   mkShop "W2" 0 9007199254740994 0;
   mkShop "W3" 1 9007199254740991 0].

End Binary64.

(** ** Notions used in the statements *)

(** Every entry of [order] is an index into [shops]. *)
Definition valid_order (shops : list Shop) (order : list nat) : Prop :=
  Forall (fun k => (k < length shops)%nat) order.

(** The result of a computation seen through [f]. *)
Definition on_ok {A B : Type} (f : A -> B) (m : result A) : result B :=
  match m with
  | Ok a => Ok (f a)
  | Raise e => Raise e
  end.

(** A state [(order, improved)] of the loops of [two_opt], its order seen
    through [f]. *)
Definition on_order {A B : Type} (f : A -> B) (st : list A * bool)
  : list B * bool :=
  (map f (fst st), snd st).

(** The position that the subscript [k] denotes in a list of [n] items:
    [k] itself, or [n + k] for a negative [k]; [n], which is no position
    of the list, when [k] is out of range. *)
Definition position (n : nat) (k : Z) : nat :=
  if (0 <=? k)%Z then Z.to_nat k
  else if (- Z.of_nat n <=? k)%Z then Z.to_nat (Z.of_nat n + k)
  else n.

(** Every entry of [order] is a subscript that [shops] accepts: an
    integer from [-n] to [n - 1] for [n] shops. *)
Definition valid_subscripts (shops : list Shop) (order : list Z) : Prop :=
  Forall (fun k => (- Z.of_nat (length shops) <= k < Z.of_nat (length shops))%Z)
    order.

(** One improving move of the refinement: the pair [(i, j)] lies in the
    scanned range, [after + 1e-9 < before], and the slice is reversed. *)
Inductive improves (shops : list Shop) (floor_penalty : R)
  : list nat -> list nat -> Prop :=
| improves_reverse (order : list nat) (i j : nat) (before after : R) :
    (i + 2 <= j)%nat ->
    (j + 1 < length order)%nat ->
    seg_cost order shops floor_penalty i (i + 1) j (j + 1) = Ok before ->
    seg_cost order shops floor_penalty i j (i + 1) (j + 1) = Ok after ->
    after + tolerance < before ->
    improves shops floor_penalty order (reverse_slice order (i + 1) (j + 1)).

(** Zero or more improving moves. *)
Inductive improves_star (shops : list Shop) (floor_penalty : R)
  : list nat -> list nat -> Prop :=
| improves_refl (order : list nat) : improves_star shops floor_penalty order order
| improves_step (o1 o2 o3 : list nat) :
    improves_star shops floor_penalty o1 o2 ->
    improves shops floor_penalty o2 o3 ->
    improves_star shops floor_penalty o1 o3.

(** What a pass started on [o0] keeps true of its state
    [(order, improved)]. *)
Definition pass_invariant (shops : list Shop) (floor_penalty : R)
  (o0 : list nat) (st : list nat * bool) : Prop :=
  length (fst st) = length o0 /\ improves_star shops floor_penalty o0 (fst st).

(** Under the cost [c], every entry of [tail] is a nearest one to its
    predecessor among the entries from it on; [current] precedes the
    first entry. *)
Fixpoint nearest_first (c : nat -> nat -> R) (current : nat) (tail : list nat)
  : Prop :=
  match tail with
  | [] => True
  | b :: rest =>
      (forall z, In z (b :: rest) -> c current b <= c current z) /\
      nearest_first c b rest
  end.

(** After the scan of the pairs [(0, 2) .. (0, j - 1)] of a pass started
    on [order0], the entries at the positions [0 .. j] of the state have
    all been looked up in [shops]. *)
Definition scanned (shops : list Shop) (order0 : list nat) (j : nat)
  (st : list nat * bool) : Prop :=
  Permutation (fst st) order0 /\
  ((2 < j)%nat ->
   Forall (fun k => (k < length shops)%nat) (firstn (j + 1) (fst st))).

(** The key [(floor, x, y)] of a shop and the lexicographic order on keys. *)
Definition shop_key (s : Shop) : Z * R * R := (floor s, x s, y s).

Definition key_le (ka kb : Z * R * R) : Prop :=
  let '(fa, xa, ya) := ka in
  let '(fb, xb, yb) := kb in
  (fa < fb)%Z \/ (fa = fb /\ (xa < xb \/ (xa = xb /\ ya <= yb))).

(** The cost of a chain of elements under an edge cost [c]. *)
Fixpoint chain_cost {A : Type} (c : A -> A -> R) (l : list A) : R :=
  match l with
  | a :: (b :: _) as rest => c a b + chain_cost c rest
  | _ => 0
  end.

(** The cost between the shops of two indices, [d] standing for a missing
    shop. *)
Definition edge (d : Shop) (shops : list Shop) (floor_penalty : R) (k1 k2 : nat)
  : R :=
  step_cost (nth k1 shops d) (nth k2 shops d) floor_penalty.

(** ** Example data *)

(** Two shops at the same coordinate, one floor apart. *)
Definition ground : Shop := mkShop "ground" 0 0 0.
Definition upstairs : Shop := mkShop "upstairs" 1 0 0.

(** The four corners of a square on one floor, in store order A, B, C, D. *)
Definition shop_A : Shop := mkShop "A" 1 0 0.
Definition shop_B : Shop := mkShop "B" 1 10 0.
Definition shop_C : Shop := mkShop "C" 1 10 10.
Definition shop_D : Shop := mkShop "D" 1 0 10.
Definition square : list Shop := [shop_A; shop_B; shop_C; shop_D].

(** Five shops along one wall ([y = 0]) on two floors. *)
Definition shop_0 : Shop := mkShop "S0" 0 1 0.
Definition shop_1 : Shop := mkShop "S1" 1 0 0.
Definition shop_2 : Shop := mkShop "S2" 0 2 0.
Definition shop_3 : Shop := mkShop "S3" 1 2 0.
Definition shop_4 : Shop := mkShop "S4" 0 0 0.
Definition corridor : list Shop := [shop_0; shop_1; shop_2; shop_3; shop_4].

(** A mall in which two shops share the name "ground". *)
Definition namesake : Shop := mkShop "ground" 2 5 5.
Definition small_mall : Mall.t := Mall.mk 3 1 [ground; upstairs; namesake].

(** A generator that has made no draw yet and returns 1/2 at every draw,
    and the mall of the script: three floors of five shops. *)
Definition steady : Mall.rng := Mall.mk_rng (fun _ => / 2) 0.
Definition script_mall : Mall.t := fst (Mall.generate_mall (Mall.init 3 5) steady).

(** * Properties *)

(** ** The cost model *)

Lemma hypot_nonneg (dx dy : R) : 0 <= hypot dx dy.
Proof. unfold hypot. apply sqrt_pos. Qed.

Lemma hypot_zero_iff (dx dy : R) : hypot dx dy = 0 <-> dx = 0 /\ dy = 0.
Proof.
  unfold hypot. split.
  - intros H. apply sqrt_eq_0 in H; [nra | nra].
  - intros [-> ->]. replace (0 * 0 + 0 * 0) with 0 by ring. apply sqrt_0.
Qed.

Lemma hypot_swap (a b c d : R) : hypot (a - b) (c - d) = hypot (b - a) (d - c).
Proof. unfold hypot. f_equal. ring. Qed.

Lemma floor_gap_nonneg (a b : Shop) : 0 <= IZR (Z.abs (floor a - floor b)).
Proof. apply IZR_le. apply Z.abs_nonneg. Qed.

Lemma floor_gap_zero_iff (a b : Shop) :
  IZR (Z.abs (floor a - floor b)) = 0 <-> floor a = floor b.
Proof.
  split.
  - intros H. apply eq_IZR in H. lia.
  - intros ->. rewrite Z.sub_diag. reflexivity.
Qed.

Lemma step_cost_nonneg (a b : Shop) (p : R) : 0 <= p -> 0 <= step_cost a b p.
Proof.
  intros Hp. unfold step_cost.
  pose proof (hypot_nonneg (x a - x b) (y a - y b)).
  pose proof (floor_gap_nonneg a b). nra.
Qed.

(** C6: the cost of a step does not depend on its direction,
    [cost(a, b, p) = cost(b, a, p)], for every penalty [p] (the claim's
    [p >= 0] included). *)
Theorem step_cost_sym (a b : Shop) (p : R) : step_cost a b p = step_cost b a p.
Proof.
  unfold step_cost. rewrite hypot_swap.
  replace (floor b - floor a)%Z with (- (floor a - floor b))%Z by ring.
  rewrite Z.abs_opp. reflexivity.
Qed.

(** C3, as stated, fails at [floor_penalty = 0]: two shops at the same
    coordinate on different floors are at cost 0. *)
Lemma step_cost_zero_penalty_counterexample :
  ~ (0 <= 0 ->
     (step_cost ground upstairs 0 = 0 <->
      x ground = x upstairs /\ y ground = y upstairs /\
      floor ground = floor upstairs)).
Proof.
  intros H. specialize (H (Rle_refl 0)).
  assert (Hc : step_cost ground upstairs 0 = 0).
  { unfold step_cost, ground, upstairs; simpl.
    replace (0 - 0) with 0 by ring.
    assert (H0 : hypot 0 0 = 0) by (apply hypot_zero_iff; auto).
    rewrite H0. ring. }
  apply H in Hc. destruct Hc as (_ & _ & Hf). discriminate Hf.
Qed.

(** C3, amended: for a positive penalty the cost is 0 exactly when the two
    shops have the same x, the same y and the same floor. *)
Theorem step_cost_zero_iff (a b : Shop) (p : R) :
  0 < p ->
  step_cost a b p = 0 <-> x a = x b /\ y a = y b /\ floor a = floor b.
Proof.
  intros Hp. unfold step_cost.
  pose proof (hypot_nonneg (x a - x b) (y a - y b)) as Hh.
  pose proof (floor_gap_nonneg a b) as Hf.
  split.
  - intros H.
    assert (Hh0 : hypot (x a - x b) (y a - y b) = 0) by nra.
    assert (Hf0 : IZR (Z.abs (floor a - floor b)) = 0) by nra.
    apply hypot_zero_iff in Hh0. apply floor_gap_zero_iff in Hf0.
    destruct Hh0. repeat split; [lra | lra | assumption].
  - intros (Hx & Hy & Hfl).
    assert (Hh0 : hypot (x a - x b) (y a - y b) = 0)
      by (apply hypot_zero_iff; split; lra).
    apply floor_gap_zero_iff in Hfl. rewrite Hh0, Hfl. ring.
Qed.

Lemma step_cost_zero_iff_witness :
  0 < 50 /\
  (step_cost ground upstairs 50 = 0 <->
   x ground = x upstairs /\ y ground = y upstairs /\
   floor ground = floor upstairs).
Proof. split; [lra | apply (step_cost_zero_iff ground upstairs 50); lra]. Defined.

(** ** The error monad and the loops *)

Lemma bind_ok {A B : Type} (m : result A) (k : A -> result B) (b : B) :
  bind m k = Ok b -> exists a, m = Ok a /\ k a = Ok b.
Proof. destruct m as [a | e]; simpl; [eauto | discriminate]. Qed.

Lemma get_ok {A : Type} (l : list A) (i : nat) (a : A) :
  get l i = Ok a <-> nth_error l i = Some a.
Proof.
  unfold get. destruct (nth_error l i); split; intros H;
    inversion H; subst; reflexivity.
Qed.

Lemma get_lt {A : Type} (l : list A) (i : nat) :
  (i < length l)%nat -> exists a, get l i = Ok a.
Proof.
  intros H. apply nth_error_Some in H. unfold get.
  destruct (nth_error l i) as [a |]; [eauto | congruence].
Qed.

Lemma get_nth {A : Type} (l : list A) (i : nat) (d : A) :
  (i < length l)%nat -> get l i = Ok (nth i l d).
Proof.
  intros H. apply get_ok. apply nth_error_nth'. exact H.
Qed.

Lemma in_range (lo hi i : nat) : In i (range lo hi) <-> (lo <= i < hi)%nat.
Proof. unfold range. rewrite in_seq. lia. Qed.

(** A property kept by every successful iteration holds after a loop that
    returns. *)
Lemma for_each_preserves {A S : Type} (P : S -> Prop)
  (body : A -> S -> result S) (l : list A) :
  (forall a st st', In a l -> P st -> body a st = Ok st' -> P st') ->
  forall st st', P st -> for_each body l st = Ok st' -> P st'.
Proof.
  induction l as [| a l IH]; intros Hbody st st' HP Hrun; simpl in Hrun.
  - inversion Hrun; subst; exact HP.
  - apply bind_ok in Hrun. destruct Hrun as (st1 & H1 & H2).
    apply IH with (st := st1).
    + intros b s s' Hb. apply Hbody. right; exact Hb.
    + apply (Hbody a st st1); [left; reflexivity | exact HP | exact H1].
    + exact H2.
Qed.

(** A loop whose iterations all return, under an invariant, returns. *)
Lemma for_each_returns {A S : Type} (P : S -> Prop)
  (body : A -> S -> result S) (l : list A) :
  (forall a st, In a l -> P st -> exists st', body a st = Ok st' /\ P st') ->
  forall st, P st -> exists st', for_each body l st = Ok st' /\ P st'.
Proof.
  induction l as [| a l IH]; intros Hbody st HP; simpl.
  - exists st. split; [reflexivity | exact HP].
  - destruct (Hbody a st (or_introl eq_refl) HP) as (st1 & H1 & HP1).
    rewrite H1. simpl. apply IH; [| exact HP1].
    intros b s Hb. apply Hbody. right; exact Hb.
Qed.

(** ** Comparisons *)

Lemma Rltb_true (a b : R) : Rltb a b = true <-> a < b.
Proof.
  unfold Rltb. destruct (Rlt_dec a b); split; intros; try assumption;
    try reflexivity; try discriminate; contradiction.
Qed.

Lemma Rltb_false (a b : R) : Rltb a b = false <-> b <= a.
Proof.
  unfold Rltb. destruct (Rlt_dec a b); split; intros; try discriminate;
    try reflexivity; lra.
Qed.

Lemma Reqb_true (a b : R) : Reqb a b = true <-> a = b.
Proof.
  unfold Reqb. destruct (Req_dec_T a b); split; intros; try assumption;
    try reflexivity; try discriminate; contradiction.
Qed.

Lemma Reqb_false (a b : R) : Reqb a b = false <-> a <> b.
Proof.
  unfold Reqb. destruct (Req_dec_T a b); split; intros; try assumption;
    try reflexivity; try discriminate; contradiction.
Qed.

Lemma tolerance_pos : 0 < tolerance.
Proof. unfold tolerance. apply Rinv_0_lt_compat. lra. Qed.

(** ** Chains and their cost *)

Section Chain.

Context {A : Type}.
Variable c : A -> A -> R.

Lemma chain_cost_cut (l1 l2 : list A) (a b : A) :
  chain_cost c (l1 ++ a :: b :: l2)
  = chain_cost c (l1 ++ [a]) + c a b + chain_cost c (b :: l2).
Proof.
  induction l1 as [| u l1 IH].
  - simpl. ring.
  - destruct l1 as [| v l1].
    + simpl. ring.
    + change (chain_cost c ((u :: v :: l1) ++ a :: b :: l2))
        with (c u v + chain_cost c ((v :: l1) ++ a :: b :: l2)).
      change (chain_cost c ((u :: v :: l1) ++ [a]))
        with (c u v + chain_cost c ((v :: l1) ++ [a])).
      rewrite IH. ring.
Qed.

Hypothesis c_sym : forall a b, c a b = c b a.

Lemma chain_cost_rev (l : list A) : chain_cost c (rev l) = chain_cost c l.
Proof.
  induction l as [| a l IH]; [reflexivity |].
  destruct l as [| b l]; [reflexivity |].
  change (rev (a :: b :: l)) with ((rev l ++ [b]) ++ [a]).
  rewrite <- app_assoc. simpl app.
  rewrite chain_cost_cut.
  change (rev l ++ [b]) with (rev (b :: l)). rewrite IH.
  simpl. rewrite (c_sym b a). ring.
Qed.

(** Reversing the inside [b .. e] of a chain exchanges the two edges that
    enter and leave it. *)
Lemma chain_cost_reverse_inside (P M Q : list A) (a b e d : A) :
  chain_cost c (P ++ a :: e :: rev M ++ b :: d :: Q)
  = chain_cost c (P ++ a :: b :: M ++ e :: d :: Q)
    - (c a b + c e d) + (c a e + c b d).
Proof.
  rewrite !chain_cost_cut.
  assert (Hin : chain_cost c (e :: rev M ++ b :: d :: Q)
                = chain_cost c (e :: rev M ++ [b]) + c b d + chain_cost c (d :: Q)).
  { change (e :: rev M ++ b :: d :: Q) with ((e :: rev M) ++ b :: d :: Q).
    rewrite chain_cost_cut. reflexivity. }
  assert (Hout : chain_cost c (b :: M ++ e :: d :: Q)
                 = chain_cost c (b :: M ++ [e]) + c e d + chain_cost c (d :: Q)).
  { change (b :: M ++ e :: d :: Q) with ((b :: M) ++ e :: d :: Q).
    rewrite chain_cost_cut. reflexivity. }
  rewrite Hin, Hout.
  assert (Hrev : chain_cost c (e :: rev M ++ [b]) = chain_cost c (b :: M ++ [e])).
  { replace (e :: rev M ++ [b]) with (rev (b :: M ++ [e])).
    - apply chain_cost_rev.
    - simpl. rewrite rev_app_distr. reflexivity. }
  rewrite Hrev. ring.
Qed.

End Chain.

(** ** Reversal of a slice *)

Lemma reverse_slice_perm {A : Type} (l : list A) (lo hi : nat) :
  (lo <= hi)%nat -> Permutation (reverse_slice l lo hi) l.
Proof.
  intros H. unfold reverse_slice.
  rewrite Nat.max_r by exact H.
  rewrite <- (firstn_skipn lo l) at 4.
  apply Permutation_app_head.
  rewrite <- (firstn_skipn (hi - lo) (skipn lo l)) at 2.
  rewrite skipn_skipn. replace (hi - lo + lo)%nat with hi by lia.
  apply Permutation_app_tail. symmetry. apply Permutation_rev.
Qed.

Lemma reverse_slice_length {A : Type} (l : list A) (lo hi : nat) :
  (lo <= hi)%nat -> length (reverse_slice l lo hi) = length l.
Proof. intros H. apply Permutation_length. apply reverse_slice_perm. exact H. Qed.

(** The shape of an order around a scanned pair [(i, j)]. *)
Lemma split_at_pair {A : Type} (l : list A) (i j : nat) :
  (i + 2 <= j)%nat -> (j + 1 < length l)%nat ->
  exists P a b M e d Q,
    l = P ++ a :: b :: M ++ e :: d :: Q /\
    length P = i /\ length M = (j - i - 2)%nat.
Proof.
  intros Hij Hj.
  pose proof (firstn_skipn i l) as Hl.
  assert (HP : length (firstn i l) = i) by (rewrite length_firstn; lia).
  assert (Hr : length (skipn i l) = (length l - i)%nat) by apply length_skipn.
  destruct (skipn i l) as [| a [| b r]] eqn:Er; simpl in Hr; try lia.
  pose proof (firstn_skipn (j - i - 2) r) as Hrr.
  assert (HM : length (firstn (j - i - 2) r) = (j - i - 2)%nat)
    by (rewrite length_firstn; lia).
  assert (Hq : length (skipn (j - i - 2) r) = (length r - (j - i - 2))%nat)
    by apply length_skipn.
  destruct (skipn (j - i - 2) r) as [| e [| d Q]] eqn:Eq; simpl in Hq; try lia.
  exists (firstn i l), a, b, (firstn (j - i - 2) r), e, d, Q.
  split; [| split; assumption].
  rewrite Hrr. exact (eq_sym Hl).
Qed.

Lemma firstn_exact {A : Type} (l1 l2 : list A) (n : nat) :
  length l1 = n -> firstn n (l1 ++ l2) = l1.
Proof.
  intros <-. rewrite firstn_app, Nat.sub_diag, firstn_O, app_nil_r.
  apply firstn_all.
Qed.

Lemma skipn_exact {A : Type} (l1 l2 : list A) (n : nat) :
  length l1 = n -> skipn n (l1 ++ l2) = l2.
Proof.
  intros <-. rewrite skipn_app, Nat.sub_diag, skipn_all. reflexivity.
Qed.

Lemma reverse_slice_shape {A : Type} (P M Q : list A) (a b e d : A) (i j : nat) :
  length P = i -> length M = (j - i - 2)%nat -> (i + 2 <= j)%nat ->
  reverse_slice (P ++ a :: b :: M ++ e :: d :: Q) (i + 1) (j + 1)
  = P ++ a :: e :: rev M ++ b :: d :: Q.
Proof.
  intros HP HM Hij. unfold reverse_slice.
  rewrite Nat.max_r by lia.
  assert (H1 : length (P ++ [a]) = (i + 1)%nat)
    by (rewrite length_app; simpl; lia).
  assert (H2 : length (b :: M ++ [e]) = (j + 1 - (i + 1))%nat)
    by (simpl; rewrite length_app; simpl; lia).
  assert (H3 : length ((P ++ [a]) ++ b :: M ++ [e]) = (j + 1)%nat)
    by (rewrite length_app; lia).
  assert (E1 : P ++ a :: b :: M ++ e :: d :: Q
               = (P ++ [a]) ++ (b :: M ++ [e]) ++ d :: Q).
  { rewrite <- !app_assoc. simpl. rewrite <- app_assoc. reflexivity. }
  assert (E2 : P ++ a :: b :: M ++ e :: d :: Q
               = ((P ++ [a]) ++ b :: M ++ [e]) ++ d :: Q).
  { rewrite E1. apply app_assoc. }
  rewrite E2 at 3. rewrite (skipn_exact _ _ _ H3).
  rewrite E1.
  rewrite (firstn_exact _ _ _ H1), (skipn_exact _ _ _ H1).
  rewrite (firstn_exact _ _ _ H2).
  simpl. rewrite rev_app_distr. simpl.
  rewrite <- !app_assoc. simpl. reflexivity.
Qed.

(** ** Lookups of shops *)

Lemma shop_at_value (order : list nat) (shops : list Shop) (i : nat) (s : Shop) :
  shop_at order shops i = Ok s ->
  exists k, nth_error order i = Some k /\ forall d, s = nth k shops d.
Proof.
  unfold shop_at. intros H. apply bind_ok in H. destruct H as (k & Hk & Hs).
  apply get_ok in Hk. apply get_ok in Hs.
  exists k. split; [exact Hk |].
  intros d. symmetry. apply nth_error_nth. exact Hs.
Qed.

Lemma shop_at_returns (order : list nat) (shops : list Shop) (i : nat) :
  valid_order shops order -> (i < length order)%nat ->
  exists s, shop_at order shops i = Ok s.
Proof.
  intros Hv Hi. unfold shop_at.
  destruct (get_lt order i Hi) as (k & Hk). rewrite Hk. simpl.
  apply get_lt. unfold valid_order in Hv. rewrite Forall_forall in Hv.
  apply Hv. apply get_ok in Hk. eapply nth_error_In. exact Hk.
Qed.

Lemma seg_cost_value (order : list nat) (shops : list Shop) (p : R)
  (i1 i2 j1 j2 : nat) (v : R) :
  seg_cost order shops p i1 i2 j1 j2 = Ok v ->
  exists k1 k2 k3 k4,
    nth_error order i1 = Some k1 /\ nth_error order i2 = Some k2 /\
    nth_error order j1 = Some k3 /\ nth_error order j2 = Some k4 /\
    forall d, v = edge d shops p k1 k2 + edge d shops p k3 k4.
Proof.
  unfold seg_cost. intros H.
  apply bind_ok in H. destruct H as (sa & Ha & H).
  apply bind_ok in H. destruct H as (sb & Hb & H).
  apply bind_ok in H. destruct H as (sc & Hc & H).
  apply bind_ok in H. destruct H as (sd & Hd & H).
  inversion H; subst v; clear H.
  apply shop_at_value in Ha, Hb, Hc, Hd.
  destruct Ha as (k1 & E1 & V1). destruct Hb as (k2 & E2 & V2).
  destruct Hc as (k3 & E3 & V3). destruct Hd as (k4 & E4 & V4).
  exists k1, k2, k3, k4. repeat (split; [assumption |]).
  intros d. unfold edge.
  rewrite <- (V1 d), <- (V2 d), <- (V3 d), <- (V4 d). reflexivity.
Qed.

Lemma seg_cost_returns (order : list nat) (shops : list Shop) (p : R)
  (i1 i2 j1 j2 : nat) :
  valid_order shops order ->
  (i1 < length order)%nat -> (i2 < length order)%nat ->
  (j1 < length order)%nat -> (j2 < length order)%nat ->
  exists v, seg_cost order shops p i1 i2 j1 j2 = Ok v.
Proof.
  intros Hv H1 H2 H3 H4. unfold seg_cost.
  destruct (shop_at_returns order shops i1 Hv H1) as (sa & ->).
  destruct (shop_at_returns order shops i2 Hv H2) as (sb & ->).
  destruct (shop_at_returns order shops j1 Hv H3) as (sc & ->).
  destruct (shop_at_returns order shops j2 Hv H4) as (sd & ->).
  simpl. eauto.
Qed.

Lemma edge_sym (d : Shop) (shops : list Shop) (p : R) (k1 k2 : nat) :
  edge d shops p k1 k2 = edge d shops p k2 k1.
Proof.
  unfold edge, step_cost. rewrite hypot_swap.
  replace (floor (nth k2 shops d) - floor (nth k1 shops d))%Z
    with (- (floor (nth k1 shops d) - floor (nth k2 shops d)))%Z by ring.
  rewrite Z.abs_opp. reflexivity.
Qed.

(** ** Improving moves *)

Lemma nth_error_middle {A : Type} (P Q : list A) (a : A) (i : nat) :
  length P = i -> nth_error (P ++ a :: Q) i = Some a.
Proof.
  intros <-. rewrite nth_error_app2 by lia.
  rewrite Nat.sub_diag. reflexivity.
Qed.

Section Improves.

Variable shops : list Shop.
Variable p : R.

Lemma improves_perm (o o' : list nat) :
  improves shops p o o' -> Permutation o' o.
Proof.
  intros H. destruct H. apply reverse_slice_perm. lia.
Qed.

Lemma improves_length (o o' : list nat) :
  improves shops p o o' -> length o' = length o.
Proof. intros H. apply Permutation_length. eapply improves_perm. exact H. Qed.

Lemma improves_valid (o o' : list nat) :
  improves shops p o o' -> valid_order shops o -> valid_order shops o'.
Proof.
  intros H Hv. unfold valid_order in *.
  eapply Permutation_Forall; [| exact Hv].
  symmetry. eapply improves_perm. exact H.
Qed.

(** The shape of an improving move. *)
Lemma improves_shape (o o' : list nat) :
  improves shops p o o' ->
  exists P a b M e d Q,
    o = P ++ a :: b :: M ++ e :: d :: Q /\
    o' = P ++ a :: e :: rev M ++ b :: d :: Q /\
    forall s, edge s shops p a e + edge s shops p b d + tolerance
              < edge s shops p a b + edge s shops p e d.
Proof.
  intros H. destruct H as [o i j before after Hij Hj Hb Ha Hlt].
  destruct (split_at_pair o i j Hij Hj) as (P & a & b & M & e & d & Q & Eo & HP & HM).
  exists P, a, b, M, e, d, Q. split; [exact Eo |]. split.
  - rewrite Eo at 1. apply reverse_slice_shape; assumption.
  - assert (Ni : nth_error o i = Some a)
      by (rewrite Eo; apply nth_error_middle; exact HP).
    assert (Ni1 : nth_error o (i + 1) = Some b).
    { rewrite Eo.
      change (P ++ a :: b :: M ++ e :: d :: Q)
        with (P ++ [a] ++ b :: M ++ e :: d :: Q).
      rewrite app_assoc. apply nth_error_middle.
      rewrite length_app. simpl. lia. }
    assert (Nj : nth_error o j = Some e).
    { rewrite Eo.
      replace (P ++ a :: b :: M ++ e :: d :: Q)
        with ((P ++ a :: b :: M) ++ e :: d :: Q)
        by (rewrite <- app_assoc; reflexivity).
      apply nth_error_middle. rewrite length_app. simpl. lia. }
    assert (Nj1 : nth_error o (j + 1) = Some d).
    { rewrite Eo.
      replace (P ++ a :: b :: M ++ e :: d :: Q)
        with ((P ++ a :: b :: M ++ [e]) ++ d :: Q)
        by (rewrite <- app_assoc; simpl; rewrite <- app_assoc; reflexivity).
      apply nth_error_middle. rewrite length_app. simpl.
      rewrite length_app. simpl. lia. }
    apply seg_cost_value in Hb, Ha.
    destruct Hb as (k1 & k2 & k3 & k4 & B1 & B2 & B3 & B4 & Vb).
    destruct Ha as (h1 & h2 & h3 & h4 & A1 & A2 & A3 & A4 & Va).
    assert (k1 = a) by congruence. assert (k2 = b) by congruence.
    assert (k3 = e) by congruence. assert (k4 = d) by congruence.
    assert (h1 = a) by congruence. assert (h2 = e) by congruence.
    assert (h3 = b) by congruence. assert (h4 = d) by congruence.
    subst. intros s. rewrite <- (Va s), <- (Vb s). exact Hlt.
Qed.

Lemma improves_cost (o o' : list nat) (s : Shop) :
  improves shops p o o' ->
  chain_cost (edge s shops p) o' + tolerance < chain_cost (edge s shops p) o.
Proof.
  intros H. apply improves_shape in H.
  destruct H as (P & a & b & M & e & d & Q & -> & -> & Hlt).
  rewrite chain_cost_reverse_inside by (intros; apply edge_sym).
  specialize (Hlt s). lra.
Qed.

Lemma improves_first (o o' : list nat) :
  improves shops p o o' -> nth_error o' 0 = nth_error o 0.
Proof.
  intros H. apply improves_shape in H.
  destruct H as (P & a & b & M & e & d & Q & -> & -> & _).
  destruct P; reflexivity.
Qed.

Lemma improves_last (o o' : list nat) :
  improves shops p o o' ->
  nth_error o' (length o - 1) = nth_error o (length o - 1).
Proof.
  intros H. apply improves_shape in H.
  destruct H as (P & a & b & M & e & d & Q & -> & -> & _).
  replace (P ++ a :: b :: M ++ e :: d :: Q)
    with ((P ++ a :: b :: M ++ [e]) ++ d :: Q)
    by (rewrite <- app_assoc; simpl; rewrite <- app_assoc; reflexivity).
  replace (P ++ a :: e :: rev M ++ b :: d :: Q)
    with ((P ++ a :: e :: rev M ++ [b]) ++ d :: Q)
    by (rewrite <- app_assoc; simpl; rewrite <- app_assoc; reflexivity).
  assert (HL : length (P ++ a :: e :: rev M ++ [b])
               = length (P ++ a :: b :: M ++ [e])).
  { rewrite !length_app. simpl. rewrite !length_app, length_rev. reflexivity. }
  rewrite (length_app (P ++ a :: b :: M ++ [e])).
  rewrite nth_error_app2 by (rewrite HL; simpl; lia).
  rewrite (nth_error_app2 (P ++ a :: b :: M ++ [e])) by (simpl; lia).
  rewrite HL. reflexivity.
Qed.

(** Zero or more improving moves keep what one move keeps, and never raise
    the cost. *)
Lemma improves_star_trans (o1 o2 o3 : list nat) :
  improves_star shops p o1 o2 -> improves_star shops p o2 o3 ->
  improves_star shops p o1 o3.
Proof.
  intros H12 H23. induction H23; [exact H12 |].
  eapply improves_step; [| eassumption]. apply IHimproves_star. exact H12.
Qed.

Lemma improves_star_perm (o o' : list nat) :
  improves_star shops p o o' -> Permutation o' o.
Proof.
  induction 1; [reflexivity |].
  etransitivity; [eapply improves_perm; eassumption | assumption].
Qed.

Lemma improves_star_length (o o' : list nat) :
  improves_star shops p o o' -> length o' = length o.
Proof. intros H. apply Permutation_length. apply improves_star_perm. exact H. Qed.

Lemma improves_star_valid (o o' : list nat) :
  improves_star shops p o o' -> valid_order shops o -> valid_order shops o'.
Proof.
  intros H Hv. unfold valid_order in *.
  eapply Permutation_Forall; [| exact Hv].
  symmetry. apply improves_star_perm. exact H.
Qed.

Lemma improves_star_cost (o o' : list nat) (s : Shop) :
  improves_star shops p o o' ->
  chain_cost (edge s shops p) o' <= chain_cost (edge s shops p) o.
Proof.
  induction 1; [lra |].
  pose proof (improves_cost _ _ s H0). pose proof tolerance_pos. lra.
Qed.

Lemma improves_star_first (o o' : list nat) :
  improves_star shops p o o' -> nth_error o' 0 = nth_error o 0.
Proof.
  induction 1; [reflexivity |].
  rewrite <- IHimproves_star. eapply improves_first. eassumption.
Qed.

Lemma improves_star_last (o o' : list nat) :
  improves_star shops p o o' ->
  nth_error o' (length o - 1) = nth_error o (length o - 1).
Proof.
  induction 1; [reflexivity |].
  rewrite <- IHimproves_star.
  rewrite <- (improves_star_length _ _ H).
  eapply improves_last. eassumption.
Qed.

End Improves.

(** ** The loops of the refinement *)

Section TwoOptLoops.

Variable shops : list Shop.
Variable p : R.

Lemma try_reverse_cases (i j : nat) (o o' : list nat) (f f' : bool) :
  try_reverse shops p i j (o, f) = Ok (o', f') ->
  (i + 2 <= j)%nat -> (j + 1 < length o)%nat ->
  (o' = o /\ f' = f) \/ (improves shops p o o' /\ f' = true).
Proof.
  unfold try_reverse. intros H Hij Hj.
  apply bind_ok in H. destruct H as (before & Hb & H).
  apply bind_ok in H. destruct H as (after & Ha & H).
  destruct (Rltb (after + tolerance) before) eqn:E.
  - inversion H; subst. right. split; [| reflexivity].
    apply Rltb_true in E. econstructor; eassumption.
  - inversion H; subst. left. split; reflexivity.
Qed.

Lemma try_reverse_flag (i j : nat) (o o' : list nat) (f f' : bool) :
  try_reverse shops p i j (o, f) = Ok (o', f') ->
  (o' = o /\ f' = f) \/ f' = true.
Proof.
  unfold try_reverse. intros H.
  apply bind_ok in H. destruct H as (before & Hb & H).
  apply bind_ok in H. destruct H as (after & Ha & H).
  destruct (Rltb (after + tolerance) before);
    inversion H; subst; [right | left]; auto.
Qed.

Lemma try_reverse_returns (i j : nat) (o : list nat) (f : bool) :
  valid_order shops o -> (i + 2 <= j)%nat -> (j + 1 < length o)%nat ->
  exists st', try_reverse shops p i j (o, f) = Ok st'.
Proof.
  intros Hv Hij Hj. unfold try_reverse.
  destruct (seg_cost_returns o shops p i (i + 1) j (j + 1) Hv) as (b & ->);
    try lia.
  destruct (seg_cost_returns o shops p i j (i + 1) (j + 1) Hv) as (a & ->);
    try lia.
  simpl. destruct (Rltb (a + tolerance) b); eauto.
Qed.

Lemma try_reverse_invariant (o0 : list nat) (n i j : nat)
  (st st' : list nat * bool) :
  length o0 = n -> (i + 2 <= j)%nat -> (j + 1 < n)%nat ->
  pass_invariant shops p o0 st -> try_reverse shops p i j st = Ok st' ->
  pass_invariant shops p o0 st'.
Proof.
  intros Hn Hij Hj [HL HS] H. destruct st as [o f], st' as [o' f'].
  simpl in *.
  apply try_reverse_cases in H; try lia.
  destruct H as [[-> _] | [Himp _]].
  - split; assumption.
  - split; simpl.
    + rewrite (improves_length _ _ _ _ Himp). exact HL.
    + eapply improves_step; eassumption.
Qed.

Lemma two_opt_pass_invariant (o o' : list nat) (f : bool) :
  two_opt_pass shops p (length o) o = Ok (o', f) ->
  length o' = length o /\ improves_star shops p o o'.
Proof.
  unfold two_opt_pass. intros H.
  change (pass_invariant shops p o (o', f)).
  eapply (for_each_preserves (pass_invariant shops p o)); [| | exact H].
  - intros i st st' Hi HP Hin.
    apply in_range in Hi.
    eapply (for_each_preserves (pass_invariant shops p o)); [| exact HP | exact Hin].
    intros j s s' Hjr Hs Hrun. apply in_range in Hjr.
    eapply (try_reverse_invariant o (length o) i j); try eassumption;
      try reflexivity; lia.
  - split; [reflexivity | constructor].
Qed.

Lemma two_opt_pass_unchanged (n : nat) (o o' : list nat) :
  two_opt_pass shops p n o = Ok (o', false) -> o' = o.
Proof.
  unfold two_opt_pass. intros H.
  set (U := fun st : list nat * bool => snd st = false -> fst st = o).
  assert (HU : U (o', false)).
  { eapply (for_each_preserves U); [| | exact H].
    - intros i st st' _ HP Hin.
      eapply (for_each_preserves U); [| exact HP | exact Hin].
      intros j [s fs] [s' fs'] _ Hs Hrun. unfold U in *. simpl in *.
      apply try_reverse_flag in Hrun.
      destruct Hrun as [[-> ->] | ->]; [exact Hs | discriminate].
    - unfold U. reflexivity. }
  apply HU. reflexivity.
Qed.

Lemma two_opt_pass_returns (o : list nat) :
  valid_order shops o ->
  exists st, two_opt_pass shops p (length o) o = Ok st.
Proof.
  intros Hv. unfold two_opt_pass.
  set (Q := fun st : list nat * bool =>
              pass_invariant shops p o st /\ valid_order shops (fst st)).
  assert (HQ : Q (o, false)).
  { split; [split; [reflexivity | constructor] | exact Hv]. }
  destruct (for_each_returns Q
              (fun i st =>
                 for_each (try_reverse shops p i)
                   (range (i + 2) (length o - 1)) st)
              (range 0 (length o - 3))) with (st := (o, false))
    as (st' & Hrun & _); [| exact HQ | eauto].
  intros i st Hi HQst. apply in_range in Hi.
  apply (for_each_returns Q); [| exact HQst].
  intros j [s fs] Hj [HP Hvs]. apply in_range in Hj.
  assert (HL : length s = length o) by (destruct HP; assumption).
  destruct (try_reverse_returns i j s fs Hvs) as (st1 & H1); try lia.
  exists st1. split; [exact H1 |].
  assert (HP1 : pass_invariant shops p o st1).
  { eapply (try_reverse_invariant o (length o) i j); try eassumption;
      try reflexivity; lia. }
  split; [exact HP1 |].
  destruct HP1 as [_ HS]. eapply improves_star_valid; eassumption.
Qed.

Lemma two_opt_while_invariant (budget : nat) :
  forall (o o' : list nat) (n : nat) (f f' : bool),
    length o = n ->
    two_opt_while shops p n budget (o, f) = Ok (o', f') ->
    length o' = n /\ improves_star shops p o o'.
Proof.
  induction budget as [| b IH]; intros o o' n f f' Hn H; simpl in H.
  - destruct f; inversion H; subst; split; auto; constructor.
  - destruct f.
    + apply bind_ok in H. destruct H as ([o1 f1] & Hp & Hw).
      subst n. apply two_opt_pass_invariant in Hp. destruct Hp as [HL HS].
      apply IH in Hw; [| exact HL]. destruct Hw as [HL' HS'].
      split; [exact HL' |]. eapply improves_star_trans; eassumption.
    + inversion H; subst; split; auto; constructor.
Qed.

Lemma two_opt_while_returns (budget : nat) :
  forall (o : list nat) (f : bool),
    valid_order shops o ->
    exists st, two_opt_while shops p (length o) budget (o, f) = Ok st.
Proof.
  induction budget as [| b IH]; intros o f Hv; simpl.
  - destruct f; eauto.
  - destruct f; [| eauto].
    destruct (two_opt_pass_returns o Hv) as ([o1 f1] & Hp). rewrite Hp. simpl.
    apply two_opt_pass_invariant in Hp. destruct Hp as [HL HS].
    rewrite <- HL. apply IH. eapply improves_star_valid; eassumption.
Qed.

(** A loop that ends with [improved = False] ends on an order that a pass
    leaves alone, and has made at least one pass. *)
Lemma two_opt_while_converged (budget : nat) :
  forall (o o' : list nat) (n : nat),
    two_opt_while shops p n budget (o, true) = Ok (o', false) ->
    (0 < budget)%nat /\ two_opt_pass shops p n o' = Ok (o', false).
Proof.
  induction budget as [| b IH]; intros o o' n H; simpl in H.
  - inversion H.
  - split; [lia |].
    apply bind_ok in H. destruct H as ([o1 f1] & Hp & Hw).
    destruct f1.
    + apply IH in Hw. apply Hw.
    + assert (E : o' = o1).
      { destruct b; simpl in Hw; inversion Hw; reflexivity. }
      subst o1. pose proof (two_opt_pass_unchanged _ _ _ Hp) as E.
      subst o'. exact Hp.
Qed.

End TwoOptLoops.

(** ** The length of a path *)

Lemma skipn_nth_cons {A : Type} (l : list A) (k : nat) (d : A) :
  (k < length l)%nat -> skipn k l = nth k l d :: skipn (S k) l.
Proof.
  revert k. induction l as [| a l IH]; intros k H; simpl in H; [lia |].
  destruct k as [| k]; [reflexivity |].
  simpl. apply IH. lia.
Qed.

Lemma chain_cost_cons2 {A : Type} (c : A -> A -> R) (a b : A) (l : list A) :
  chain_cost c (a :: b :: l) = c a b + chain_cost c (b :: l).
Proof. reflexivity. Qed.

Lemma path_length_from (order : list nat) (shops : list Shop) (p : R) (d : Shop) :
  valid_order shops order ->
  forall (m k : nat) (acc : R),
    (k + m <= length order - 1)%nat ->
    exists v,
      for_each
        (fun i acc =>
           oi <- get order i ;;
           a <- get shops oi ;;
           oj <- get order (i + 1) ;;
           b <- get shops oj ;;
           Ok (acc + step_cost a b p))
        (seq k m) acc = Ok v /\
      v = acc + chain_cost (edge d shops p) (firstn (m + 1) (skipn k order)).
Proof.
  intros Hv. unfold valid_order in Hv. rewrite Forall_forall in Hv.
  induction m as [| m IH]; intros k acc Hk.
  - exists acc. split; [reflexivity |].
    simpl. destruct (skipn k order) as [| a r]; simpl; ring.
  - assert (Hk0 : (k < length order)%nat) by lia.
    assert (Hk1 : (k + 1 < length order)%nat) by lia.
    simpl for_each.
    rewrite (get_nth order k 0%nat Hk0). simpl.
    rewrite (get_nth shops _ d) by (apply Hv; apply nth_In; exact Hk0). simpl.
    rewrite (get_nth order (k + 1) 0%nat Hk1). simpl.
    rewrite (get_nth shops _ d) by (apply Hv; apply nth_In; exact Hk1). simpl.
    destruct (IH (S k) (acc + step_cost (nth (nth k order 0%nat) shops d)
                                 (nth (nth (k + 1) order 0%nat) shops d) p))
      as (v & Hrun & Hval); [lia |].
    exists v. split; [exact Hrun |].
    rewrite Hval.
    rewrite (skipn_nth_cons order k 0%nat Hk0).
    replace (S k) with (k + 1)%nat by lia.
    rewrite (skipn_nth_cons order (k + 1) 0%nat Hk1).
    replace (S m + 1)%nat with (S (S m)) by lia.
    replace (m + 1)%nat with (S m) by lia.
    rewrite !firstn_cons, chain_cost_cons2.
    set (C := chain_cost _ _). unfold edge. ring.
Qed.

Lemma path_length_chain (order : list nat) (shops : list Shop) (p : R) (d : Shop) :
  valid_order shops order ->
  path_length order shops p = Ok (chain_cost (edge d shops p) order).
Proof.
  intros Hv. unfold path_length, range.
  destruct (path_length_from order shops p d Hv (length order - 1 - 0) 0 0)
    as (v & Hrun & Hval); [lia |].
  rewrite Hrun. f_equal. rewrite Hval. simpl skipn.
  rewrite firstn_all2 by lia. ring.
Qed.

Lemma path_length_returns (order : list nat) (shops : list Shop) (p : R) :
  valid_order shops order -> exists v, path_length order shops p = Ok v.
Proof.
  intros Hv. exists (chain_cost (edge ground shops p) order).
  apply path_length_chain. exact Hv.
Qed.

(** Every iteration of a loop that returns has returned. *)
Lemma for_each_ok_each {A S : Type} (body : A -> S -> result S) (l : list A) :
  forall st st', for_each body l st = Ok st' ->
  forall a, In a l -> exists s s', body a s = Ok s'.
Proof.
  induction l as [| b l IH]; intros st st' H a Ha; [destruct Ha |].
  simpl in H. apply bind_ok in H. destruct H as (st1 & H1 & H2).
  destruct Ha as [<- | Ha]; [eauto |].
  eapply IH; eassumption.
Qed.

(** A path of two or more entries has a length only when all its entries
    are indices of shops. *)
Lemma path_length_valid (order : list nat) (shops : list Shop) (p c : R) :
  path_length order shops p = Ok c -> (2 <= length order)%nat ->
  valid_order shops order.
Proof.
  unfold path_length. intros H Hn.
  assert (Hpos : forall i, (i < length order - 1)%nat ->
                 exists oi oj,
                   nth_error order i = Some oi /\ (oi < length shops)%nat /\
                   nth_error order (i + 1) = Some oj /\ (oj < length shops)%nat).
  { intros i Hi.
    destruct (for_each_ok_each _ _ _ _ H i) as (s & s' & Hb);
      [apply in_range; lia |].
    apply bind_ok in Hb. destruct Hb as (oi & Hoi & Hb).
    apply bind_ok in Hb. destruct Hb as (a & Ha & Hb).
    apply bind_ok in Hb. destruct Hb as (oj & Hoj & Hb).
    apply bind_ok in Hb. destruct Hb as (b & Hb & _).
    apply get_ok in Hoi, Ha, Hoj, Hb.
    exists oi, oj. repeat split; try assumption.
    - apply nth_error_Some. congruence.
    - apply nth_error_Some. congruence. }
  unfold valid_order. apply Forall_forall. intros k Hk.
  apply In_nth_error in Hk. destruct Hk as (i & Hi).
  assert (Hlt : (i < length order)%nat) by (apply nth_error_Some; congruence).
  destruct (Nat.eq_dec i (length order - 1)) as [E | NE].
  - destruct (Hpos (i - 1)%nat) as (oi & oj & _ & _ & Hj & Hjlt); [lia |].
    replace (i - 1 + 1)%nat with i in Hj by lia. congruence.
  - destruct (Hpos i) as (oi & oj & Hoi & Hoilt & _); [lia |]. congruence.
Qed.

(** ** [min] with a key *)

Section PyMin.

Context {A K : Type}.
Variable key : A -> result K.
Variable lt : K -> K -> bool.

Lemma min_scan_member (l : list A) :
  (forall a, In a l -> exists k, key a = Ok k) ->
  forall best bk,
  exists m, min_scan key lt best bk l = Ok m /\ (m = best \/ In m l).
Proof.
  induction l as [| c l IH]; intros Hkey best bk; simpl.
  - exists best. auto.
  - destruct (Hkey c (or_introl eq_refl)) as (kc & Hkc). rewrite Hkc. simpl.
    assert (Hkey' : forall a, In a l -> exists k, key a = Ok k)
      by (intros a Ha; apply Hkey; right; exact Ha).
    destruct (lt kc bk).
    + destruct (IH Hkey' c kc) as (m & Hm & [E | Hin]); exists m; auto.
    + destruct (IH Hkey' best bk) as (m & Hm & [E | Hin]); exists m; auto.
Qed.

Lemma py_min_member (l : list A) :
  l <> [] ->
  (forall a, In a l -> exists k, key a = Ok k) ->
  exists m, py_min key lt l = Ok m /\ In m l.
Proof.
  intros Hne Hkey. destruct l as [| a l]; [congruence |]. simpl.
  destruct (Hkey a (or_introl eq_refl)) as (ka & Hka). rewrite Hka. simpl.
  destruct (min_scan_member l (fun b Hb => Hkey b (or_intror Hb)) a ka)
    as (m & Hm & [E | Hin]); exists m; auto.
Qed.

(** When [lt] is the strict part of a total preorder [le], the scan
    returns an element whose key is least. *)
Variable le : K -> K -> Prop.
Hypothesis le_refl : forall k, le k k.
Hypothesis le_trans : forall a b c, le a b -> le b c -> le a c.
Hypothesis lt_true : forall a b, lt a b = true -> le a b.
Hypothesis lt_false : forall a b, lt a b = false -> le b a.

Lemma min_scan_least (l : list A) :
  forall best bk m,
    key best = Ok bk ->
    min_scan key lt best bk l = Ok m ->
    exists km, key m = Ok km /\ le km bk /\
               forall a ka, In a l -> key a = Ok ka -> le km ka.
Proof.
  induction l as [| c l IH]; intros best bk m Hb Hrun; simpl in Hrun.
  - inversion Hrun; subst. exists bk.
    split; [exact Hb |]. split; [apply le_refl |].
    intros a ka Ha. destruct Ha.
  - apply bind_ok in Hrun. destruct Hrun as (kc & Hkc & Hrun).
    destruct (lt kc bk) eqn:E.
    + destruct (IH c kc m Hkc Hrun) as (km & Hkm & Hle & Hall).
      exists km. split; [exact Hkm |]. split.
      * eapply le_trans; [exact Hle |]. apply lt_true. exact E.
      * intros a ka [<- | Ha] Hka; [| eapply Hall; eassumption].
        assert (ka = kc) by congruence. subst. exact Hle.
    + destruct (IH best bk m Hb Hrun) as (km & Hkm & Hle & Hall).
      exists km. split; [exact Hkm |]. split; [exact Hle |].
      intros a ka [<- | Ha] Hka; [| eapply Hall; eassumption].
      assert (ka = kc) by congruence. subst.
      eapply le_trans; [exact Hle |]. apply lt_false. exact E.
Qed.

Lemma py_min_least (l : list A) (m : A) :
  py_min key lt l = Ok m ->
  exists km, key m = Ok km /\
             forall a ka, In a l -> key a = Ok ka -> le km ka.
Proof.
  destruct l as [| b l]; simpl; [discriminate |].
  intros H. apply bind_ok in H. destruct H as (kb & Hkb & Hrun).
  destruct (min_scan_least l b kb m Hkb Hrun) as (km & Hkm & Hle & Hall).
  exists km. split; [exact Hkm |].
  intros a ka [<- | Ha] Hka; [| eapply Hall; eassumption].
  assert (ka = kb) by congruence. subst. exact Hle.
Qed.

End PyMin.

(** ** The order on keys *)

Lemma key_le_refl (k : Z * R * R) : key_le k k.
Proof. destruct k as [[f u] v]. simpl. right. split; [reflexivity |]. right. split; [reflexivity | lra]. Qed.

Lemma key_le_trans (a b c : Z * R * R) : key_le a b -> key_le b c -> key_le a c.
Proof.
  destruct a as [[fa xa] ya], b as [[fb xb] yb], c as [[fc xc] yc]. simpl.
  intros [H1 | [E1 [H1 | [X1 H1]]]] [H2 | [E2 [H2 | [X2 H2]]]];
    try (left; lia); right; (split; [lia |]);
    try (left; lra); right; split; lra.
Qed.

Lemma key_ltb_true (a b : Z * R * R) : key_ltb a b = true -> key_le a b.
Proof.
  destruct a as [[fa xa] ya], b as [[fb xb] yb]. simpl.
  destruct (Z.eqb_spec fa fb) as [Ef | Nf]; simpl.
  - destruct (Reqb xa xb) eqn:Ex; simpl.
    + apply Reqb_true in Ex.
      destruct (Reqb ya yb) eqn:Ey; simpl; [discriminate |].
      intros H. apply Rltb_true in H. right. split; [exact Ef |].
      right. split; [exact Ex | lra].
    + intros H. apply Rltb_true in H. right. split; [exact Ef |]. left. exact H.
  - intros H. apply Z.ltb_lt in H. left. exact H.
Qed.

Lemma key_ltb_false (a b : Z * R * R) : key_ltb a b = false -> key_le b a.
Proof.
  destruct a as [[fa xa] ya], b as [[fb xb] yb]. simpl.
  destruct (Z.eqb_spec fa fb) as [Ef | Nf]; simpl.
  - destruct (Reqb xa xb) eqn:Ex; simpl.
    + apply Reqb_true in Ex.
      destruct (Reqb ya yb) eqn:Ey; simpl.
      * apply Reqb_true in Ey. intros _. right. split; [auto |].
        right. split; [auto | lra].
      * intros H. apply Rltb_false in H. right. split; [auto |].
        right. split; [auto | lra].
    + apply Reqb_false in Ex. intros H. apply Rltb_false in H.
      right. split; [auto |]. left. lra.
  - intros H. apply Z.ltb_ge in H. left. lia.
Qed.

(** ** The set of unvisited indices *)

Lemma filter_out_absent (k : nat) (s : list nat) :
  ~ In k s -> filter (fun j => negb (Nat.eqb j k)) s = s.
Proof.
  induction s as [| a s IH]; intros H; simpl; [reflexivity |].
  destruct (Nat.eqb_spec a k) as [-> | Hne]; simpl.
  - exfalso. apply H. left. reflexivity.
  - rewrite IH; [reflexivity |]. intros Hin. apply H. right. exact Hin.
Qed.

Lemma filter_out_perm (k : nat) (s : list nat) :
  NoDup s -> In k s ->
  Permutation s (k :: filter (fun j => negb (Nat.eqb j k)) s).
Proof.
  induction s as [| a s IH]; intros Hnd Hin; [destruct Hin |].
  inversion Hnd as [| ? ? Hna Hnd']; subst. simpl.
  destruct (Nat.eqb_spec a k) as [-> | Hne]; simpl.
  - rewrite filter_out_absent by exact Hna. reflexivity.
  - destruct Hin as [E | Hin]; [contradiction |].
    rewrite perm_swap. apply perm_skip. apply IH; assumption.
Qed.

Lemma set_remove_spec (k : nat) (s : list nat) :
  NoDup s -> In k s ->
  exists s', set_remove k s = Ok s' /\ Permutation s (k :: s').
Proof.
  intros Hnd Hin. unfold set_remove.
  assert (E : existsb (Nat.eqb k) s = true).
  { apply existsb_exists. exists k. split; [exact Hin | apply Nat.eqb_refl]. }
  rewrite E. eexists. split; [reflexivity |].
  apply filter_out_perm; assumption.
Qed.

(** ** Nearest-neighbour construction *)

Section NearestNeighbor.

Variable shops : list Shop.
Variable p : R.

Lemma step_key_returns (current : nat) (l : list nat) :
  (current < length shops)%nat ->
  Forall (fun k => (k < length shops)%nat) l ->
  forall j, In j l ->
  exists k,
    (a <- get shops current ;; b <- get shops j ;; Ok (step_cost a b p)) = Ok k.
Proof.
  intros Hc Hl j Hj. rewrite Forall_forall in Hl.
  destruct (get_lt shops current Hc) as (a & ->).
  destruct (get_lt shops j (Hl j Hj)) as (b & ->).
  simpl. eauto.
Qed.

Lemma nn_loop_spec (fuel : nat) :
  forall (current : nat) (unvisited order : list nat),
    (length unvisited <= fuel)%nat ->
    NoDup unvisited ->
    Forall (fun k => (k < length shops)%nat) unvisited ->
    (current < length shops)%nat ->
    exists tail,
      nn_loop fuel shops p current unvisited order = Ok (order ++ tail) /\
      Permutation tail unvisited.
Proof.
  induction fuel as [| fuel IH]; intros current unvisited order Hf Hnd Hv Hc.
  - destruct unvisited; simpl in Hf; [| lia].
    exists []. simpl. rewrite app_nil_r. split; [reflexivity | constructor].
  - destruct unvisited as [| u unvisited'].
    + exists []. simpl. rewrite app_nil_r. split; [reflexivity | constructor].
    + remember (u :: unvisited') as unvisited eqn:Eu.
      assert (Hne : unvisited <> []) by (rewrite Eu; discriminate).
      destruct (py_min_member
                  (fun j => a <- get shops current ;; b <- get shops j ;;
                            Ok (step_cost a b p))
                  Rltb unvisited Hne (step_key_returns current unvisited Hc Hv))
        as (next_idx & Hmin & Hin).
      destruct (set_remove_spec next_idx unvisited Hnd Hin) as (s' & Hrem & Hperm).
      assert (Hnd' : NoDup (next_idx :: s'))
        by (eapply Permutation_NoDup; eassumption).
      assert (Hv' : Forall (fun k => (k < length shops)%nat) (next_idx :: s'))
        by (eapply Permutation_Forall; eassumption).
      assert (HL : length unvisited = S (length s'))
        by (apply Permutation_length in Hperm; exact Hperm).
      apply NoDup_cons_iff in Hnd'. destruct Hnd' as [_ Hnds].
      apply Forall_cons_iff in Hv'. destruct Hv' as [Hlt Hvs].
      destruct (IH next_idx s' (order ++ [next_idx])) as (tail & Hrun & Htail);
        try assumption; try lia.
      exists (next_idx :: tail). split.
      * subst unvisited. cbn [nn_loop].
        rewrite Hmin. cbn [bind]. rewrite Hrem. cbn [bind].
        rewrite Hrun. rewrite <- app_assoc. reflexivity.
      * rewrite Hperm. apply perm_skip. exact Htail.
Qed.

Lemma start_key_returns :
  forall i, In i (range 0 (length shops)) ->
  exists k, (s <- get shops i ;; Ok (floor s, x s, y s)) = Ok k.
Proof.
  intros i Hi. apply in_range in Hi.
  destruct (get_lt shops i) as (s & ->); [lia |]. simpl. eauto.
Qed.

(** The construction returns an order that starts at a shop of least key
    and lists every index once. *)
Lemma nearest_neighbor_spec :
  shops <> [] ->
  exists start tail s0,
    nearest_neighbor shops p = Ok (start :: tail) /\
    Permutation (start :: tail) (seq 0 (length shops)) /\
    nth_error shops start = Some s0 /\
    forall j s, nth_error shops j = Some s -> key_le (shop_key s0) (shop_key s).
Proof.
  intros Hne. unfold nearest_neighbor.
  assert (Hn : (0 < length shops)%nat)
    by (destruct shops; [congruence | simpl; lia]).
  destruct (Nat.eqb_spec (length shops) 0) as [E | _]; [lia |].
  assert (Hr : range 0 (length shops) <> [])
    by (unfold range; destruct (length shops); [lia | discriminate]).
  destruct (py_min_member
              (fun i => s <- get shops i ;; Ok (floor s, x s, y s))
              key_ltb (range 0 (length shops)) Hr start_key_returns)
    as (start & Hmin & Hin).
  rewrite Hmin. simpl.
  assert (Hnd : NoDup (range 0 (length shops))) by apply seq_NoDup.
  destruct (set_remove_spec start _ Hnd Hin) as (unv & Hrem & Hperm).
  rewrite Hrem. simpl.
  assert (Hnd' : NoDup (start :: unv)) by (eapply Permutation_NoDup; eassumption).
  assert (Hv : Forall (fun k => (k < length shops)%nat) (start :: unv)).
  { eapply Permutation_Forall; [exact Hperm |].
    apply Forall_forall. intros k Hk. apply in_range in Hk. lia. }
  apply NoDup_cons_iff in Hnd'. destruct Hnd' as [_ Hnds].
  apply Forall_cons_iff in Hv. destruct Hv as [Hlt Hvs].
  destruct (nn_loop_spec (length unv) start unv [start]) as (tail & Hrun & Htail);
    try assumption; try lia.
  destruct (py_min_least _ key_ltb key_le key_le_refl key_le_trans
              key_ltb_true key_ltb_false _ _ Hmin) as (km & Hkm & Hleast).
  apply bind_ok in Hkm. destruct Hkm as (s0 & Hs0 & Hk0).
  inversion Hk0; subst km. apply get_ok in Hs0.
  exists start, tail, s0. split; [exact Hrun |]. split; [| split].
  - unfold range in Hperm. rewrite Nat.sub_0_r in Hperm.
    rewrite Hperm. apply perm_skip. exact Htail.
  - exact Hs0.
  - intros j s Hj.
    apply (Hleast j (shop_key s)).
    + apply in_range. split; [lia |]. apply nth_error_Some. congruence.
    + apply get_ok in Hj. rewrite Hj. reflexivity.
Qed.

End NearestNeighbor.

(** ** The refinement as a whole *)

Section TwoOpt.

Variable shops : list Shop.
Variable p : R.

Lemma two_opt_run_invariant (order o' : list nat) (m : Z) (f : bool) :
  two_opt_run order shops p m = Ok (o', f) ->
  length o' = length order /\ improves_star shops p order o'.
Proof.
  unfold two_opt_run. destruct (Nat.ltb (length order) 4).
  - intros H. inversion H; subst. split; [reflexivity | constructor].
  - intros H. eapply two_opt_while_invariant; [reflexivity | exact H].
Qed.

Lemma two_opt_run_returns (order : list nat) (m : Z) :
  valid_order shops order ->
  exists st, two_opt_run order shops p m = Ok st.
Proof.
  intros Hv. unfold two_opt_run. destruct (Nat.ltb (length order) 4).
  - eauto.
  - apply two_opt_while_returns. exact Hv.
Qed.

Lemma two_opt_improves (order o' : list nat) (m : Z) :
  two_opt order shops p m = Ok o' ->
  length o' = length order /\ improves_star shops p order o'.
Proof.
  unfold two_opt. intros H. apply bind_ok in H.
  destruct H as ([o1 f] & Hrun & E). inversion E; subst. simpl.
  eapply two_opt_run_invariant. exact Hrun.
Qed.

Lemma two_opt_returns (order : list nat) (m : Z) :
  valid_order shops order -> exists o', two_opt order shops p m = Ok o'.
Proof.
  intros Hv. destruct (two_opt_run_returns order m Hv) as (st & Hst).
  unfold two_opt. rewrite Hst. simpl. eauto.
Qed.

Lemma two_opt_cost (order : list nat) (m : Z) :
  valid_order shops order ->
  exists order' c c',
    two_opt order shops p m = Ok order' /\
    path_length order shops p = Ok c /\
    path_length order' shops p = Ok c' /\
    c' <= c.
Proof.
  intros Hv. destruct (two_opt_returns order m Hv) as (o' & Ho').
  pose proof (two_opt_improves _ _ _ Ho') as [_ HS].
  exists o', (chain_cost (edge ground shops p) order),
    (chain_cost (edge ground shops p) o').
  split; [exact Ho' |]. split; [apply path_length_chain; exact Hv |].
  split.
  - apply path_length_chain. eapply improves_star_valid; eassumption.
  - apply improves_star_cost. exact HS.
Qed.

End TwoOpt.

(** ** The entry point *)

Lemma seq_valid (shops : list Shop) (order : list nat) :
  Permutation order (seq 0 (length shops)) -> valid_order shops order.
Proof.
  intros H. unfold valid_order. eapply Permutation_Forall.
  - symmetry. exact H.
  - apply Forall_forall. intros k Hk. apply in_seq in Hk. lia.
Qed.

Lemma nearest_neighbor_perm (shops : list Shop) (p : R) :
  exists init,
    nearest_neighbor shops p = Ok init /\
    Permutation init (seq 0 (length shops)).
Proof.
  destruct shops as [| s shops'] eqn:E.
  - exists []. split; [reflexivity | constructor].
  - rewrite <- E.
    destruct (nearest_neighbor_spec shops p) as (start & tail & s0 & H & HP & _);
      [rewrite E; discriminate |].
    exists (start :: tail). split; assumption.
Qed.

(** The entry point returns; its order comes from the constructed one by
    improving moves, and its total is the length of that order. *)
Lemma compute_efficient_path_spec (shops : list Shop) (p : R) :
  exists init order total c0,
    nearest_neighbor shops p = Ok init /\
    Permutation init (seq 0 (length shops)) /\
    two_opt init shops p default_max_passes = Ok order /\
    improves_star shops p init order /\
    path_length init shops p = Ok c0 /\
    path_length order shops p = Ok total /\
    total <= c0 /\
    compute_efficient_path shops p = Ok (order, total).
Proof.
  destruct (nearest_neighbor_perm shops p) as (init & Hinit & Hperm).
  pose proof (seq_valid shops init Hperm) as Hv.
  destruct (two_opt_cost shops p init default_max_passes Hv)
    as (order & c0 & total & Htwo & Hc0 & Htotal & Hle).
  pose proof (two_opt_improves _ _ _ _ _ Htwo) as [_ HS].
  exists init, order, total, c0.
  repeat (split; [assumption |]).
  unfold compute_efficient_path. rewrite Hinit. simpl.
  rewrite Htwo. simpl. rewrite Htotal. reflexivity.
Qed.

(** C1: the order returned by [compute_efficient_path], and already the
    order built by [nearest_neighbor], is a permutation of the indices
    [0 .. n-1]: its length is [n], it has no duplicate and misses no
    index. *)
Theorem tour_is_permutation (shops : list Shop) (floor_penalty : R) :
  exists init order total,
    nearest_neighbor shops floor_penalty = Ok init /\
    compute_efficient_path shops floor_penalty = Ok (order, total) /\
    Permutation init (seq 0 (length shops)) /\
    Permutation order (seq 0 (length shops)) /\
    length order = length shops /\
    NoDup order /\
    (forall i, (i < length shops)%nat <-> In i order).
Proof.
  destruct (compute_efficient_path_spec shops floor_penalty)
    as (init & order & total & c0 & Hinit & Hperm & _ & HS & _ & _ & _ & Hrun).
  assert (HP : Permutation order (seq 0 (length shops))).
  { etransitivity; [apply (improves_star_perm _ _ _ _ HS) | exact Hperm]. }
  exists init, order, total.
  repeat (split; [assumption |]).
  split; [| split].
  - rewrite (Permutation_length HP). apply length_seq.
  - eapply Permutation_NoDup; [symmetry; exact HP | apply seq_NoDup].
  - intros i. split.
    + intros Hi. eapply Permutation_in; [symmetry; exact HP |].
      apply in_seq. lia.
    + intros Hi. eapply Permutation_in in Hi; [| exact HP].
      apply in_seq in Hi. lia.
Qed.

(** With exact real arithmetic the refinement never raises the cost:
    whenever [two_opt] returns and the two path lengths are defined, the
    [path_length] of the order returned is at most the [path_length] of
    the order given; for an order of valid indices [two_opt] returns and
    both lengths are defined; the tour of [compute_efficient_path] costs
    at most the nearest-neighbour tour.  Every reversal lowers the exact
    cost by more than the tolerance.  This is a fact of the main model
    only: it does not survive rounding, as the binary64 model shows. *)
Lemma exact_two_opt_never_costlier (shops : list Shop) (floor_penalty : R) :
  (forall (order order' : list nat) (max_passes : Z) (c c' : R),
      two_opt order shops floor_penalty max_passes = Ok order' ->
      path_length order shops floor_penalty = Ok c ->
      path_length order' shops floor_penalty = Ok c' ->
      c' <= c) /\
  (forall (order : list nat) (max_passes : Z),
      valid_order shops order ->
      exists order' c c',
        two_opt order shops floor_penalty max_passes = Ok order' /\
        path_length order shops floor_penalty = Ok c /\
        path_length order' shops floor_penalty = Ok c' /\
        c' <= c) /\
  (exists init order total c0,
      nearest_neighbor shops floor_penalty = Ok init /\
      compute_efficient_path shops floor_penalty = Ok (order, total) /\
      path_length init shops floor_penalty = Ok c0 /\
      total <= c0).
Proof.
  split; [| split].
  - intros order order' max_passes c c' Htwo Hc Hc'.
    destruct (le_lt_dec 2 (length order)) as [Hn | Hn].
    + pose proof (path_length_valid _ _ _ _ Hc Hn) as Hv.
      destruct (two_opt_cost shops floor_penalty order max_passes Hv)
        as (o2 & c2 & c2' & H1 & H2 & H3 & Hle).
      assert (o2 = order') by congruence. subst o2.
      assert (c2 = c) by congruence. assert (c2' = c') by congruence.
      subst. exact Hle.
    + assert (E : order' = order).
      { unfold two_opt, two_opt_run in Htwo.
        destruct (Nat.ltb_spec (length order) 4) as [_ | H4]; [| lia].
        simpl in Htwo. congruence. }
      subst order'. assert (c' = c) by congruence. subst. lra.
  - intros order max_passes Hv. apply two_opt_cost. exact Hv.
  - destruct (compute_efficient_path_spec shops floor_penalty)
      as (init & order & total & c0 & Hinit & _ & _ & _ & Hc0 & _ & Hle & Hrun).
    exists init, order, total, c0. repeat (split; [assumption |]). exact Hle.
Qed.

(** ** The refinement under rounding *)

Section Rounding.

Import PrimFloat.
Local Open Scope float_scope.

(** C2: in binary64 the refinement can raise the cost.  On the four shops
    of [long_wall], with the default penalty 50 and the default 20
    passes, [nearest_neighbor] builds the order [0; 1; 2; 3], whose
    [path_length] is 9007199254741044.  At the pair (0, 2) the two new
    edges cost 9007199254741042 as computed and the two old ones
    9007199254741044 (without rounding each pair costs 9007199254741043),
    so the test [after + 1e-9 < before] passes and [two_opt] returns
    [0; 2; 1; 3].  The [path_length] of that order is 9007199254741046,
    more than that of the order given, and [compute_efficient_path]
    returns it as the total of the tour. *)
Theorem two_opt_raises_cost :
  Binary64.nearest_neighbor Binary64.long_wall 50 = Ok [0; 1; 2; 3]%nat /\
  Binary64.seg_cost [0; 1; 2; 3]%nat Binary64.long_wall 50 0 1 2 3
  = Ok 9007199254741044 /\
  Binary64.seg_cost [0; 1; 2; 3]%nat Binary64.long_wall 50 0 2 1 3
  = Ok 9007199254741042 /\
  (9007199254741042 + Binary64.tolerance <? 9007199254741044) = true /\
  Binary64.two_opt [0; 1; 2; 3]%nat Binary64.long_wall 50 default_max_passes
  = Ok [0; 2; 1; 3]%nat /\
  Binary64.path_length [0; 1; 2; 3]%nat Binary64.long_wall 50
  = Ok 9007199254741044 /\
  Binary64.path_length [0; 2; 1; 3]%nat Binary64.long_wall 50
  = Ok 9007199254741046 /\
  (9007199254741046 <=? 9007199254741044) = false /\
  Binary64.compute_efficient_path Binary64.long_wall 50
  = Ok ([0; 2; 1; 3]%nat, 9007199254741046).
Proof. vm_compute. repeat split. Qed.

End Rounding.

(** C10: [two_opt] keeps the first and the last entry of the order it is
    given (whenever it returns, and it returns for every order of valid
    indices); consequently the tour of [compute_efficient_path] starts at
    a shop whose key [(floor, x, y)] is least. *)
Theorem two_opt_keeps_ends (shops : list Shop) (floor_penalty : R) :
  (forall (order order' : list nat) (max_passes : Z),
      two_opt order shops floor_penalty max_passes = Ok order' ->
      length order' = length order /\
      nth_error order' 0 = nth_error order 0 /\
      nth_error order' (length order - 1) = nth_error order (length order - 1)) /\
  (forall (order : list nat) (max_passes : Z),
      valid_order shops order ->
      exists order', two_opt order shops floor_penalty max_passes = Ok order') /\
  (shops <> [] ->
   exists first rest total s0,
     compute_efficient_path shops floor_penalty = Ok (first :: rest, total) /\
     nth_error shops first = Some s0 /\
     forall j s, nth_error shops j = Some s ->
                 key_le (shop_key s0) (shop_key s)).
Proof.
  split; [| split].
  - intros order order' max_passes H.
    apply two_opt_improves in H. destruct H as [HL HS].
    split; [exact HL |]. split.
    + eapply improves_star_first. exact HS.
    + eapply improves_star_last. exact HS.
  - intros order max_passes Hv. apply two_opt_returns. exact Hv.
  - intros Hne.
    destruct (nearest_neighbor_spec shops floor_penalty Hne)
      as (start & tail & s0 & Hnn & _ & Hs0 & Hleast).
    destruct (compute_efficient_path_spec shops floor_penalty)
      as (init & order & total & c0 & Hinit & _ & _ & HS & _ & _ & _ & Hrun).
    assert (E : init = start :: tail) by congruence. subst init.
    pose proof (improves_star_first _ _ _ _ HS) as Hfirst. simpl in Hfirst.
    destruct order as [| first rest]; [discriminate |].
    simpl in Hfirst. inversion Hfirst; subst first.
    exists start, rest, total, s0. repeat split; assumption.
Qed.

(** C4, amended: a second run of [two_opt] on the order returned by a
    first run returns that same order (hence the same cost) whenever the
    first run was not cut off by [max_passes] while still improving: its
    last pass made no reversal, or it made no pass at all. *)
Theorem two_opt_twice (shops : list Shop) (floor_penalty : R)
  (order o1 : list nat) (max_passes : Z) (improved : bool) :
  two_opt_run order shops floor_penalty max_passes = Ok (o1, improved) ->
  improved = false \/ (length order < 4)%nat \/ (max_passes <= 0)%Z ->
  two_opt order shops floor_penalty max_passes = Ok o1 /\
  two_opt o1 shops floor_penalty max_passes = Ok o1.
Proof.
  intros Hrun Hcase.
  assert (H1 : two_opt order shops floor_penalty max_passes = Ok o1)
    by (unfold two_opt; rewrite Hrun; reflexivity).
  split; [exact H1 |].
  pose proof (two_opt_run_invariant _ _ _ _ _ _ Hrun) as [HL _].
  unfold two_opt, two_opt_run in *. rewrite HL.
  destruct (Nat.ltb (length order) 4) eqn:E4.
  - reflexivity.
  - destruct Hcase as [-> | [Hn | Hm]].
    + apply two_opt_while_converged in Hrun. destruct Hrun as [Hb Hpass].
      destruct (Z.to_nat max_passes) as [| b]; [lia |].
      simpl. rewrite Hpass. simpl. destruct b; reflexivity.
    + apply Nat.ltb_ge in E4. lia.
    + replace (Z.to_nat max_passes) with 0%nat in * by lia.
      simpl in *. reflexivity.
Qed.

(** C5, amended: the engine does not check its configuration.
    [compute_efficient_path] returns a tour and its total for every
    penalty, the negative ones included, and [two_opt] with a
    non-positive [max_passes] returns the order it was given. *)
Theorem configuration_is_not_checked (shops : list Shop) (floor_penalty : R) :
  (exists order total,
      compute_efficient_path shops floor_penalty = Ok (order, total)) /\
  (forall (order : list nat) (max_passes : Z),
      (max_passes <= 0)%Z ->
      two_opt order shops floor_penalty max_passes = Ok order).
Proof.
  split.
  - destruct (compute_efficient_path_spec shops floor_penalty)
      as (init & order & total & c0 & _ & _ & _ & _ & _ & _ & _ & Hrun).
    eauto.
  - intros order max_passes Hm. unfold two_opt, two_opt_run.
    replace (Z.to_nat max_passes) with 0%nat by lia.
    destruct (Nat.ltb (length order) 4); reflexivity.
Qed.

(** C8: for an empty list of shops [compute_efficient_path] returns the
    empty order and the total 0. *)
Theorem empty_mall (floor_penalty : R) :
  nearest_neighbor [] floor_penalty = Ok [] /\
  compute_efficient_path [] floor_penalty = Ok ([], 0).
Proof. split; reflexivity. Qed.

(** ** Lookup by name *)

Lemma find_name_none (l : list Shop) (shop_name : string) :
  find (fun shop => String.eqb (name shop) shop_name) l = None <->
  forall shop, In shop l -> name shop <> shop_name.
Proof.
  split.
  - intros H shop Hin E.
    apply (find_none _ _ H) in Hin. simpl in Hin.
    apply String.eqb_neq in Hin. contradiction.
  - intros H. induction l as [| s l IH]; [reflexivity |]. simpl.
    destruct (String.eqb_spec (name s) shop_name) as [E | _].
    + exfalso. apply (H s); [left; reflexivity | exact E].
    + apply IH. intros shop Hin. apply H. right. exact Hin.
Qed.

Lemma find_name_first (before after : list Shop) (shop : Shop) (shop_name : string) :
  name shop = shop_name ->
  (forall s, In s before -> name s <> shop_name) ->
  find (fun s => String.eqb (name s) shop_name) (before ++ shop :: after)
  = Some shop.
Proof.
  intros Hn Hb. induction before as [| s before IH]; simpl.
  - rewrite (proj2 (String.eqb_eq _ _) Hn). reflexivity.
  - destruct (String.eqb_spec (name s) shop_name) as [E | _].
    + exfalso. apply (Hb s); [left; reflexivity | exact E].
    + apply IH. intros s' Hin. apply Hb. right. exact Hin.
Qed.

(** C9: a lookup by name finds nothing exactly when no stored shop has
    the name: [get_shop_coordinates] returns [None], and
    [calculate_walking_time] answers "Shop not found." exactly when one of
    its two names is missing.  When several shops have the name, the first
    one in the store is used: [get_shop_coordinates] returns its
    coordinates and floor, and [calculate_walking_time] computes the
    walking time from the first record of each of its two names. *)
Theorem lookup_by_name (self : Mall.t) (shop_name : string) :
  (Mall.get_shop_coordinates self shop_name = None <->
   forall shop, In shop (Mall.shops self) -> name shop <> shop_name) /\
  ((forall shop, In shop (Mall.shops self) -> name shop <> shop_name) ->
   forall other,
     Mall.calculate_walking_time self shop_name other
     = Mall.Message "Shop not found." /\
     Mall.calculate_walking_time self other shop_name
     = Mall.Message "Shop not found.") /\
  (forall before shop after,
      Mall.shops self = before ++ shop :: after ->
      name shop = shop_name ->
      (forall s, In s before -> name s <> shop_name) ->
      Mall.get_shop_coordinates self shop_name
      = Some (x shop, y shop, floor shop)) /\
  (forall other,
      Mall.calculate_walking_time self shop_name other
      = Mall.Message "Shop not found." <->
      (forall shop, In shop (Mall.shops self) -> name shop <> shop_name) \/
      (forall shop, In shop (Mall.shops self) -> name shop <> other)) /\
  (forall before shop after other before' shop' after',
      Mall.shops self = before ++ shop :: after ->
      name shop = shop_name ->
      (forall s, In s before -> name s <> shop_name) ->
      Mall.shops self = before' ++ shop' :: after' ->
      name shop' = other ->
      (forall s, In s before' -> name s <> other) ->
      Mall.calculate_walking_time self shop_name other
      = if negb (floor shop =? floor shop')%Z
        then Mall.Seconds (Rabs (x shop - x shop') + Rabs (y shop - y shop')
                           + Mall.elevator_time)
        else Mall.Seconds (Rabs (x shop - x shop') + Rabs (y shop - y shop'))).
Proof.
  assert (Hnone : forall n,
             Mall.get_shop_coordinates self n = None <->
             forall shop, In shop (Mall.shops self) -> name shop <> n).
  { intros n. unfold Mall.get_shop_coordinates. rewrite <- find_name_none.
    destruct (find _ (Mall.shops self)); split; intros H;
      try reflexivity; discriminate. }
  assert (Hfirst : forall n before shop after,
             Mall.shops self = before ++ shop :: after ->
             name shop = n ->
             (forall s, In s before -> name s <> n) ->
             Mall.get_shop_coordinates self n
             = Some (x shop, y shop, floor shop)).
  { intros n before shop after Hs Hn Hb.
    unfold Mall.get_shop_coordinates. rewrite Hs.
    rewrite (find_name_first before after shop n Hn Hb). reflexivity. }
  split; [apply Hnone |]. split; [| split; [| split]].
  - intros H other. apply Hnone in H.
    unfold Mall.calculate_walking_time. rewrite H. split.
    + reflexivity.
    + destruct (Mall.get_shop_coordinates self other) as [[[x1 y1] f1] |];
        reflexivity.
  - apply Hfirst.
  - intros other. rewrite <- (Hnone shop_name), <- (Hnone other).
    unfold Mall.calculate_walking_time.
    destruct (Mall.get_shop_coordinates self shop_name) as [[[x1 y1] f1] |];
      destruct (Mall.get_shop_coordinates self other) as [[[x2 y2] f2] |].
    + split.
      * destruct (negb (f1 =? f2)%Z); discriminate.
      * intros [H | H]; discriminate.
    + split; [right; reflexivity | reflexivity].
    + split; [left; reflexivity | reflexivity].
    + split; [left; reflexivity | reflexivity].
  - intros before shop after other before' shop' after' Hs Hn Hb Hs' Hn' Hb'.
    unfold Mall.calculate_walking_time.
    rewrite (Hfirst shop_name before shop after Hs Hn Hb).
    rewrite (Hfirst other before' shop' after' Hs' Hn' Hb').
    reflexivity.
Qed.

(** ** Evaluation on concrete malls *)

Lemma hypot_flat (dx dy : R) : dy = 0 -> hypot dx dy = Rabs dx.
Proof.
  intros ->. unfold hypot.
  replace (dx * dx + 0 * 0) with (Rsqr dx) by (unfold Rsqr; ring).
  apply sqrt_Rsqr_abs.
Qed.

Lemma hypot_comm (dx dy : R) : hypot dx dy = hypot dy dx.
Proof. unfold hypot. f_equal. ring. Qed.

(** The diagonal of the square. *)
Lemma sqrt_200_bounds : 14 < sqrt 200 < 15.
Proof.
  split.
  - replace 14 with (sqrt (14 * 14)) by (apply sqrt_square; lra).
    apply sqrt_lt_1; lra.
  - replace 15 with (sqrt (15 * 15)) by (apply sqrt_square; lra).
    apply sqrt_lt_1; lra.
Qed.

(** Settle the comparisons of closed reals that block the evaluation. *)
Ltac decide_comparisons :=
  repeat match goal with
    | |- context [Rltb ?a ?b] =>
        first [ rewrite (proj2 (Rltb_true a b)) by (unfold tolerance; lra)
              | rewrite (proj2 (Rltb_false a b)) by (unfold tolerance; lra) ]
    | |- context [Reqb ?a ?b] =>
        first [ rewrite (proj2 (Reqb_true a b)) by lra
              | rewrite (proj2 (Reqb_false a b)) by lra ]
    end.

(** Evaluate the planar distances: along an axis, or the diagonal. *)
Ltac planar_distances :=
  repeat match goal with
    | |- context [hypot ?a ?b] =>
        first [ rewrite (hypot_flat a b) by lra
              | rewrite (hypot_comm a b), (hypot_flat b a) by lra
              | replace (hypot a b) with (sqrt 200)
                  by (unfold hypot; f_equal; lra) ]
    | |- context [Rabs ?a] =>
        first [ rewrite (Rabs_right a) by lra | rewrite (Rabs_left a) by lra ]
    end.

Ltac run :=
  repeat progress
    (cbn -[hypot step_cost]; try unfold step_cost; cbn -[hypot];
     planar_distances; decide_comparisons).

Lemma square_nearest_neighbor :
  nearest_neighbor square 50 = Ok [0; 1; 2; 3]%nat.
Proof.
  pose proof sqrt_200_bounds.
  unfold nearest_neighbor. run. reflexivity.
Qed.

Lemma square_two_opt_run :
  two_opt_run [0; 1; 2; 3]%nat square 50 20 = Ok ([0; 1; 2; 3]%nat, false).
Proof.
  pose proof sqrt_200_bounds.
  unfold two_opt_run. change (Z.to_nat 20) with 20%nat.
  run. reflexivity.
Qed.

Lemma square_path_length :
  path_length [0; 1; 2; 3]%nat square 50 = Ok 30.
Proof. unfold path_length. run. f_equal. lra. Qed.

Lemma corridor_first_run :
  two_opt_run [0; 1; 2; 3; 4]%nat corridor 1 1 = Ok ([0; 3; 2; 1; 4]%nat, true).
Proof.
  unfold two_opt_run. change (Z.to_nat 1) with 1%nat.
  run. reflexivity.
Qed.

Lemma corridor_second_run :
  two_opt_run [0; 3; 2; 1; 4]%nat corridor 1 1 = Ok ([0; 2; 3; 1; 4]%nat, true).
Proof.
  unfold two_opt_run. change (Z.to_nat 1) with 1%nat.
  run. reflexivity.
Qed.

Lemma corridor_path_lengths :
  path_length [0; 1; 2; 3; 4]%nat corridor 1 = Ok 9 /\
  path_length [0; 3; 2; 1; 4]%nat corridor 1 = Ok 7 /\
  path_length [0; 2; 3; 1; 4]%nat corridor 1 = Ok 5.
Proof. repeat split; unfold path_length; run; f_equal; lra. Qed.

Lemma two_floors_path :
  compute_efficient_path [ground; upstairs] (-1) = Ok ([0; 1]%nat, -1).
Proof.
  unfold compute_efficient_path, nearest_neighbor, two_opt, two_opt_run,
    path_length.
  run. f_equal. f_equal. lra.
Qed.

(** C7: on the square A, B, C, D with penalty 50 the construction starts
    at A (index 0) and visits the shops in store order at cost 30, the
    refinement changes nothing, and [compute_efficient_path] returns the
    order [0; 1; 2; 3] with total 30. *)
Theorem square_tour :
  nearest_neighbor square 50 = Ok [0; 1; 2; 3]%nat /\
  path_length [0; 1; 2; 3]%nat square 50 = Ok 30 /\
  two_opt [0; 1; 2; 3]%nat square 50 default_max_passes = Ok [0; 1; 2; 3]%nat /\
  compute_efficient_path square 50 = Ok ([0; 1; 2; 3]%nat, 30).
Proof.
  assert (Htwo : two_opt [0; 1; 2; 3]%nat square 50 default_max_passes
                 = Ok [0; 1; 2; 3]%nat).
  { unfold two_opt, default_max_passes. rewrite square_two_opt_run. reflexivity. }
  split; [exact square_nearest_neighbor |].
  split; [exact square_path_length |].
  split; [exact Htwo |].
  unfold compute_efficient_path.
  rewrite square_nearest_neighbor. cbn [bind].
  rewrite Htwo. cbn [bind].
  rewrite square_path_length. reflexivity.
Qed.

(** C4, as stated, fails when the first run is cut off by [max_passes]:
    with one pass allowed, the first run on the corridor returns an order
    of cost 7 and the second run lowers the cost to 5. *)
Lemma two_opt_twice_counterexample :
  two_opt [0; 1; 2; 3; 4]%nat corridor 1 1 = Ok [0; 3; 2; 1; 4]%nat /\
  two_opt [0; 3; 2; 1; 4]%nat corridor 1 1 = Ok [0; 2; 3; 1; 4]%nat /\
  path_length [0; 3; 2; 1; 4]%nat corridor 1 = Ok 7 /\
  path_length [0; 2; 3; 1; 4]%nat corridor 1 = Ok 5 /\
  5 < 7.
Proof.
  destruct corridor_path_lengths as (_ & H7 & H5).
  split; [unfold two_opt; rewrite corridor_first_run; reflexivity |].
  split; [unfold two_opt; rewrite corridor_second_run; reflexivity |].
  split; [exact H7 |]. split; [exact H5 | lra].
Qed.

Lemma two_opt_twice_witness :
  two_opt_run [0; 1; 2; 3]%nat square 50 20 = Ok ([0; 1; 2; 3]%nat, false) /\
  (two_opt [0; 1; 2; 3]%nat square 50 20 = Ok [0; 1; 2; 3]%nat /\
   two_opt [0; 1; 2; 3]%nat square 50 20 = Ok [0; 1; 2; 3]%nat).
Proof.
  split; [exact square_two_opt_run |].
  apply (two_opt_twice square 50 [0; 1; 2; 3]%nat [0; 1; 2; 3]%nat 20 false).
  - exact square_two_opt_run.
  - left. reflexivity.
Defined.

(** C5, as stated, fails: with the negative penalty -1 the entry point
    returns a tour, of total -1, and with [max_passes = 0] the refinement
    returns the order it was given. *)
Lemma configuration_counterexample :
  (-1 < 0 /\
   compute_efficient_path [ground; upstairs] (-1) = Ok ([0; 1]%nat, -1)) /\
  ((0 <= 0)%Z /\
   two_opt [0; 1; 2; 3; 4]%nat corridor 1 0 = Ok [0; 1; 2; 3; 4]%nat).
Proof.
  split; split; [lra | exact two_floors_path | lia | reflexivity].
Qed.

Lemma configuration_is_not_checked_witness :
  (0 <= 0)%Z /\
  two_opt [0; 1; 2; 3; 4]%nat corridor (-1) 0 = Ok [0; 1; 2; 3; 4]%nat.
Proof.
  split; [lia |].
  apply (proj2 (configuration_is_not_checked corridor (-1))). lia.
Defined.

Lemma two_opt_keeps_ends_witness :
  square <> [] /\
  exists first rest total s0,
    compute_efficient_path square 50 = Ok (first :: rest, total) /\
    nth_error square first = Some s0 /\
    forall j s, nth_error square j = Some s ->
                key_le (shop_key s0) (shop_key s).
Proof.
  split; [discriminate |].
  apply (proj2 (proj2 (two_opt_keeps_ends square 50))). discriminate.
Defined.

Lemma lookup_by_name_witness :
  (forall shop, In shop (Mall.shops small_mall) -> name shop <> "lift"%string) /\
  Mall.calculate_walking_time small_mall "lift" "ground"
  = Mall.Message "Shop not found." /\
  Mall.get_shop_coordinates small_mall "ground" = Some (0, 0, 0%Z) /\
  Mall.calculate_walking_time small_mall "ground" "upstairs"
  = Mall.Seconds (Rabs (0 - 0) + Rabs (0 - 0) + Mall.elevator_time).
Proof.
  assert (H : forall shop, In shop (Mall.shops small_mall) ->
                           name shop <> "lift"%string).
  { intros shop [<- | [<- | [<- | []]]]; discriminate. }
  split; [exact H |]. split; [| split].
  - apply (proj1 (proj2 (lookup_by_name small_mall "lift")) H "ground"%string).
  - apply (proj1 (proj2 (proj2 (lookup_by_name small_mall "ground")))
             [] ground [upstairs; namesake]).
    + reflexivity.
    + reflexivity.
    + intros s [].
  - apply (proj2 (proj2 (proj2 (proj2 (lookup_by_name small_mall "ground"))))
             [] ground [upstairs; namesake] "upstairs"%string
             [ground] upstairs [namesake]).
    + reflexivity.
    + reflexivity.
    + intros s [].
    + reflexivity.
    + reflexivity.
    + intros s [<- | []]. discriminate.
Defined.

(** * Further properties of the engine *)

(** ** The length of a path: when it is defined *)

Lemma for_each_raise {A S : Type} (body : A -> S -> result S) (l : list A) (e : exn) :
  forall st, for_each body l st = Raise e ->
  exists a s, In a l /\ body a s = Raise e.
Proof.
  induction l as [| b l IH]; intros st H; simpl in H; [discriminate |].
  destruct (body b st) as [st1 | e1] eqn:Eb; simpl in H.
  - destruct (IH st1 H) as (a & s & Ha & Hs). exists a, s.
    split; [right; exact Ha | exact Hs].
  - inversion H; subst. exists b, st.
    split; [left; reflexivity | exact Eb].
Qed.

Lemma get_raise {A : Type} (l : list A) (i : nat) (e : exn) :
  get l i = Raise e -> e = IndexError.
Proof.
  unfold get. destruct (nth_error l i); intros H; inversion H; reflexivity.
Qed.

Lemma bind_raise {A B : Type} (m : result A) (k : A -> result B) (e : exn) :
  bind m k = Raise e -> m = Raise e \/ exists a, m = Ok a /\ k a = Raise e.
Proof.
  destruct m as [a | e1]; simpl; intros H; [right; eauto |].
  left. inversion H. reflexivity.
Qed.

Lemma path_length_raise (order : list nat) (shops : list Shop) (p : R) (e : exn) :
  path_length order shops p = Raise e -> e = IndexError.
Proof.
  unfold path_length. intros H.
  apply for_each_raise in H. destruct H as (i & acc & _ & H).
  apply bind_raise in H. destruct H as [H | (oi & _ & H)];
    [eapply get_raise; exact H |].
  apply bind_raise in H. destruct H as [H | (a & _ & H)];
    [eapply get_raise; exact H |].
  apply bind_raise in H. destruct H as [H | (oj & _ & H)];
    [eapply get_raise; exact H |].
  apply bind_raise in H. destruct H as [H | (b & _ & H)];
    [eapply get_raise; exact H | discriminate].
Qed.

(** On orders whose entries are positions: [path_length] of an order with
    fewer than two entries is 0; with two or more entries it is defined
    exactly when every entry is below the number of shops, and otherwise
    raises [IndexError]. *)
Lemma path_length_positions (order : list nat) (shops : list Shop) (p : R) :
  ((length order < 2)%nat -> path_length order shops p = Ok 0) /\
  ((2 <= length order)%nat ->
   ((exists c, path_length order shops p = Ok c) <-> valid_order shops order)) /\
  ((2 <= length order)%nat -> ~ valid_order shops order ->
   path_length order shops p = Raise IndexError).
Proof.
  split; [| split].
  - intros H. destruct order as [| a [| b r]]; simpl in H; try lia; reflexivity.
  - intros H. split.
    + intros (c & Hc). eapply path_length_valid; eassumption.
    + apply path_length_returns.
  - intros H Hnv.
    destruct (path_length order shops p) as [c | e] eqn:E.
    + exfalso. apply Hnv. eapply path_length_valid; eassumption.
    + apply path_length_raise in E. subst. reflexivity.
Qed.

Lemma chain_cost_nonneg {A : Type} (c : A -> A -> R) (l : list A) :
  (forall a b, 0 <= c a b) -> 0 <= chain_cost c l.
Proof.
  intros Hc. induction l as [| a l IH]; [simpl; lra |].
  destruct l as [| b l]; [simpl; lra |].
  rewrite chain_cost_cons2. specialize (Hc a b). lra.
Qed.

Lemma last_cons {A : Type} (l : list A) (a b : A) :
  last (b :: l) a = last l b.
Proof.
  revert a b. induction l as [| u l IH]; intros a b; [reflexivity |].
  change (last (b :: u :: l) a) with (last (u :: l) a).
  rewrite (IH a u), (IH b u). reflexivity.
Qed.

Lemma last_in_cons {A : Type} (l : list A) (a : A) : In (last l a) (a :: l).
Proof.
  revert a. induction l as [| b l IH]; intros a; [left; reflexivity |].
  rewrite last_cons. right. apply IH.
Qed.

(** ** The construction is greedy *)

Lemma Rltb_true_le (a b : R) : Rltb a b = true -> a <= b.
Proof. intros H. apply Rltb_true in H. lra. Qed.

Lemma Rltb_false_le (a b : R) : Rltb a b = false -> b <= a.
Proof. intros H. apply Rltb_false in H. exact H. Qed.

Lemma nearest_first_perm (c : nat -> nat -> R) (current b : nat)
  (rest rest' : list nat) :
  (forall z, In z (b :: rest') -> c current b <= c current z) ->
  Permutation rest rest' ->
  forall z, In z (b :: rest) -> c current b <= c current z.
Proof.
  intros H HP z [<- | Hz]; apply H; [left; reflexivity |].
  right. eapply Permutation_in; eassumption.
Qed.

Lemma nn_loop_greedy (shops : list Shop) (p : R) (d : Shop) (fuel : nat) :
  forall (current : nat) (unvisited order : list nat),
    (length unvisited <= fuel)%nat ->
    NoDup unvisited ->
    Forall (fun k => (k < length shops)%nat) unvisited ->
    (current < length shops)%nat ->
    exists tail,
      nn_loop fuel shops p current unvisited order = Ok (order ++ tail) /\
      Permutation tail unvisited /\
      nearest_first (edge d shops p) current tail.
Proof.
  induction fuel as [| fuel IH]; intros current unvisited order Hf Hnd Hv Hc.
  - destruct unvisited; simpl in Hf; [| lia].
    exists []. simpl. rewrite app_nil_r. repeat split. constructor.
  - destruct unvisited as [| u unvisited'].
    + exists []. simpl. rewrite app_nil_r. repeat split. constructor.
    + remember (u :: unvisited') as unvisited eqn:Eu.
      assert (Hne : unvisited <> []) by (rewrite Eu; discriminate).
      set (key := fun j => a <- get shops current ;; b <- get shops j ;;
                           Ok (step_cost a b p)).
      assert (Hkey : forall j, In j unvisited ->
                               key j = Ok (edge d shops p current j)).
      { intros j Hj. unfold key. rewrite Forall_forall in Hv.
        rewrite (get_nth shops current d Hc). simpl.
        rewrite (get_nth shops j d (Hv j Hj)). reflexivity. }
      destruct (py_min_member key Rltb unvisited Hne) as (next_idx & Hmin & Hin).
      { intros j Hj. rewrite (Hkey j Hj). eauto. }
      destruct (py_min_least key Rltb Rle Rle_refl Rle_trans
                  Rltb_true_le Rltb_false_le _ _ Hmin) as (km & Hkm & Hleast).
      rewrite (Hkey next_idx Hin) in Hkm. inversion Hkm; subst km.
      destruct (set_remove_spec next_idx unvisited Hnd Hin) as (s' & Hrem & Hperm).
      assert (Hnd' : NoDup (next_idx :: s'))
        by (eapply Permutation_NoDup; eassumption).
      assert (Hv' : Forall (fun k => (k < length shops)%nat) (next_idx :: s'))
        by (eapply Permutation_Forall; eassumption).
      assert (HL : length unvisited = S (length s'))
        by (apply Permutation_length in Hperm; exact Hperm).
      apply NoDup_cons_iff in Hnd'. destruct Hnd' as [_ Hnds].
      apply Forall_cons_iff in Hv'. destruct Hv' as [Hlt Hvs].
      destruct (IH next_idx s' (order ++ [next_idx]))
        as (tail & Hrun & Htail & Hgreedy); try assumption; try lia.
      exists (next_idx :: tail). split; [| split].
      * subst unvisited. cbn [nn_loop]. fold key.
        rewrite Hmin. cbn [bind]. rewrite Hrem. cbn [bind].
        rewrite Hrun. rewrite <- app_assoc. reflexivity.
      * rewrite Hperm. apply perm_skip. exact Htail.
      * split; [| exact Hgreedy].
        intros z Hz. apply (Hleast z).
        -- eapply Permutation_in; [symmetry; exact Hperm |].
           destruct Hz as [<- | Hz]; [left; reflexivity |].
           right. eapply Permutation_in; eassumption.
        -- apply Hkey.
           eapply Permutation_in; [symmetry; exact Hperm |].
           destruct Hz as [<- | Hz]; [left; reflexivity |].
           right. eapply Permutation_in; eassumption.
Qed.

Lemma nearest_first_nth (c : nat -> nat -> R) (tail : list nat) :
  forall (current : nat) (k m ik ik1 im : nat),
    nearest_first c current tail ->
    nth_error (current :: tail) k = Some ik ->
    nth_error (current :: tail) (k + 1) = Some ik1 ->
    nth_error (current :: tail) m = Some im ->
    (k < m)%nat ->
    c ik ik1 <= c ik im.
Proof.
  induction tail as [| b rest IH]; intros current k m ik ik1 im Hg Hk Hk1 Hm Hlt.
  - destruct k; simpl in Hk1; [discriminate |].
    destruct (k + 1)%nat; discriminate.
  - destruct Hg as [Hb Hrest].
    destruct k as [| k].
    + simpl in Hk, Hk1. inversion Hk; inversion Hk1; subst.
      destruct m as [| m]; [lia |]. simpl in Hm.
      apply Hb. eapply nth_error_In. exact Hm.
    + destruct m as [| m]; [lia |].
      simpl in Hk, Hk1, Hm.
      eapply (IH b k m); try eassumption. lia.
Qed.

(** X4: the construction is greedy.  [nearest_neighbor] returns an order in
    which the step from each shop to the next costs no more than the step
    from that shop to any shop visited later. *)
Theorem nearest_neighbor_greedy (shops : list Shop) (floor_penalty : R) :
  exists order,
    nearest_neighbor shops floor_penalty = Ok order /\
    forall (k m ik ik1 im : nat) (a b z : Shop),
      (k < m)%nat ->
      nth_error order k = Some ik ->
      nth_error order (k + 1) = Some ik1 ->
      nth_error order m = Some im ->
      nth_error shops ik = Some a ->
      nth_error shops ik1 = Some b ->
      nth_error shops im = Some z ->
      step_cost a b floor_penalty <= step_cost a z floor_penalty.
Proof.
  destruct shops as [| s0 shops'] eqn:Es.
  - exists []. split; [reflexivity |].
    intros k m ik ik1 im a b z _ Hk. destruct k; discriminate.
  - rewrite <- Es.
    assert (Hne : shops <> []) by (rewrite Es; discriminate).
    assert (Hn : (0 < length shops)%nat) by (rewrite Es; simpl; lia).
    unfold nearest_neighbor.
    destruct (Nat.eqb_spec (length shops) 0) as [E | _]; [lia |].
    assert (Hr : range 0 (length shops) <> [])
      by (unfold range; destruct (length shops); [lia | discriminate]).
    destruct (py_min_member
                (fun i => s <- get shops i ;; Ok (floor s, x s, y s))
                key_ltb (range 0 (length shops)) Hr (start_key_returns shops))
      as (start & Hmin & Hin).
    rewrite Hmin. cbn [bind].
    assert (Hnd : NoDup (range 0 (length shops))) by apply seq_NoDup.
    destruct (set_remove_spec start _ Hnd Hin) as (unv & Hrem & Hperm).
    rewrite Hrem. cbn [bind].
    assert (Hnd' : NoDup (start :: unv))
      by (eapply Permutation_NoDup; eassumption).
    assert (Hv : Forall (fun k => (k < length shops)%nat) (start :: unv)).
    { eapply Permutation_Forall; [exact Hperm |].
      apply Forall_forall. intros k Hk. apply in_range in Hk. lia. }
    apply NoDup_cons_iff in Hnd'. destruct Hnd' as [_ Hnds].
    apply Forall_cons_iff in Hv. destruct Hv as [Hlt Hvs].
    destruct (nn_loop_greedy shops floor_penalty ground (length unv) start unv
                [start]) as (tail & Hrun & _ & Hgreedy);
      try assumption; try lia.
    exists ([start] ++ tail). split; [exact Hrun |].
    intros k m ik ik1 im a b z Hkm Hk Hk1 Hm Ha Hb Hz.
    pose proof (nearest_first_nth _ tail start k m ik ik1 im Hgreedy
                  Hk Hk1 Hm Hkm) as Hle.
    unfold edge in Hle.
    rewrite (nth_error_nth _ _ ground Ha) in Hle.
    rewrite (nth_error_nth _ _ ground Hb) in Hle.
    rewrite (nth_error_nth _ _ ground Hz) in Hle.
    exact Hle.
Qed.

Lemma nearest_neighbor_greedy_witness :
  exists order,
    nearest_neighbor square 50 = Ok order /\
    forall ik ik1 im a b z,
      nth_error order 0 = Some ik ->
      nth_error order 1 = Some ik1 ->
      nth_error order 3 = Some im ->
      nth_error square ik = Some a ->
      nth_error square ik1 = Some b ->
      nth_error square im = Some z ->
      step_cost a b 50 <= step_cost a z 50.
Proof.
  destruct (nearest_neighbor_greedy square 50) as (order & Hrun & Hg).
  exists order. split; [exact Hrun |].
  intros ik ik1 im a b z Hk Hk1 Hm. apply (Hg 0%nat 3%nat ik ik1 im a b z).
  - lia.
  - exact Hk.
  - exact Hk1.
  - exact Hm.
Defined.

(** ** The refinement: what it returns *)

(** X5: whenever [two_opt] returns, for any order, any shops, any penalty
    and any number of passes, the order returned is a permutation of the
    order given (same length, same entries with the same multiplicity),
    reached by a sequence of improving reversals. *)
Theorem two_opt_permutes (order order' : list nat) (shops : list Shop)
  (floor_penalty : R) (max_passes : Z) :
  two_opt order shops floor_penalty max_passes = Ok order' ->
  Permutation order' order /\
  length order' = length order /\
  improves_star shops floor_penalty order order' /\
  (valid_order shops order -> valid_order shops order').
Proof.
  intros H. apply two_opt_improves in H. destruct H as [HL HS].
  split; [eapply improves_star_perm; exact HS |].
  split; [exact HL |]. split; [exact HS |].
  intros Hv. eapply improves_star_valid; eassumption.
Qed.

Lemma two_opt_permutes_witness :
  two_opt [0; 1; 2; 3; 4]%nat corridor 1 1 = Ok [0; 3; 2; 1; 4]%nat /\
  Permutation [0; 3; 2; 1; 4]%nat [0; 1; 2; 3; 4]%nat.
Proof.
  assert (H : two_opt [0; 1; 2; 3; 4]%nat corridor 1 1 = Ok [0; 3; 2; 1; 4]%nat)
    by (unfold two_opt; rewrite corridor_first_run; reflexivity).
  split; [exact H |].
  apply (proj1 (two_opt_permutes _ _ _ _ _ H)).
Defined.

(** ** The refinement: when it returns *)

Lemma for_each_seq_indexed {S : Type} (P : nat -> S -> Prop)
  (body : nat -> S -> result S) (len : nat) :
  forall (lo : nat) (st st' : S),
    (forall i s s', (lo <= i < lo + len)%nat -> P i s -> body i s = Ok s' ->
                    P (Datatypes.S i) s') ->
    P lo st ->
    for_each body (seq lo len) st = Ok st' ->
    P (lo + len)%nat st'.
Proof.
  induction len as [| len IH]; intros lo st st' Hstep HP Hrun; simpl in Hrun.
  - inversion Hrun; subst. rewrite Nat.add_0_r. exact HP.
  - apply bind_ok in Hrun. destruct Hrun as (st1 & H1 & H2).
    replace (lo + Datatypes.S len)%nat with (Datatypes.S lo + len)%nat by lia.
    apply (IH (Datatypes.S lo) st1 st').
    + intros i s s' Hi. apply Hstep. lia.
    + apply (Hstep lo st st1); [lia | exact HP | exact H1].
    + exact H2.
Qed.

Lemma shop_at_valid (order : list nat) (shops : list Shop) (i : nat) (s : Shop) :
  shop_at order shops i = Ok s ->
  exists k, nth_error order i = Some k /\ (k < length shops)%nat.
Proof.
  unfold shop_at. intros H. apply bind_ok in H. destruct H as (k & Hk & Hs).
  apply get_ok in Hk. apply get_ok in Hs.
  exists k. split; [exact Hk |]. apply nth_error_Some. congruence.
Qed.

Lemma seg_cost_valid (order : list nat) (shops : list Shop) (p : R)
  (i1 i2 j1 j2 : nat) (v : R) :
  seg_cost order shops p i1 i2 j1 j2 = Ok v ->
  forall q, q = i1 \/ q = i2 \/ q = j1 \/ q = j2 ->
  exists k, nth_error order q = Some k /\ (k < length shops)%nat.
Proof.
  unfold seg_cost. intros H.
  apply bind_ok in H. destruct H as (sa & Ha & H).
  apply bind_ok in H. destruct H as (sb & Hb & H).
  apply bind_ok in H. destruct H as (sc & Hc & H).
  apply bind_ok in H. destruct H as (sd & Hd & _).
  intros q [-> | [-> | [-> | ->]]]; eapply shop_at_valid; eassumption.
Qed.

Lemma firstn_snoc {A : Type} (l : list A) (k : nat) (a : A) :
  nth_error l k = Some a -> firstn (S k) l = firstn k l ++ [a].
Proof.
  revert k. induction l as [| b l IH]; intros k H.
  - destruct k; discriminate.
  - destruct k as [| k]; simpl in H.
    + inversion H; subst. reflexivity.
    + simpl. f_equal. apply IH. exact H.
Qed.

Lemma firstn_app_ge {A : Type} (X Y : list A) (k : nat) :
  (length X <= k)%nat -> firstn k (X ++ Y) = X ++ firstn (k - length X) Y.
Proof.
  intros H. rewrite firstn_app. rewrite firstn_all2 by exact H. reflexivity.
Qed.

Lemma firstn_reverse_slice_perm {A : Type} (l : list A) (lo hi k : nat) :
  (lo <= hi)%nat -> (hi <= k)%nat -> (hi <= length l)%nat ->
  Permutation (firstn k (reverse_slice l lo hi)) (firstn k l).
Proof.
  intros Hlh Hk Hl. unfold reverse_slice. rewrite Nat.max_r by exact Hlh.
  set (mid := firstn (hi - lo) (skipn lo l)).
  assert (Hmid : length mid = (hi - lo)%nat)
    by (unfold mid; rewrite length_firstn, length_skipn; lia).
  assert (Hpre : length (firstn lo l) = lo) by (rewrite length_firstn; lia).
  assert (El : l = (firstn lo l ++ mid) ++ skipn hi l).
  { rewrite <- app_assoc. unfold mid.
    rewrite <- (firstn_skipn lo l) at 1. f_equal.
    rewrite <- (firstn_skipn (hi - lo) (skipn lo l)) at 1. f_equal.
    rewrite skipn_skipn. f_equal. lia. }
  assert (E1 : firstn k (firstn lo l ++ rev mid ++ skipn hi l)
               = (firstn lo l ++ rev mid) ++ firstn (k - hi) (skipn hi l)).
  { rewrite app_assoc. rewrite firstn_app_ge.
    - rewrite length_app, length_rev, Hpre, Hmid. do 2 f_equal. lia.
    - rewrite length_app, length_rev, Hpre, Hmid. lia. }
  assert (E2 : firstn k l
               = (firstn lo l ++ mid) ++ firstn (k - hi) (skipn hi l)).
  { rewrite El at 1. rewrite firstn_app_ge.
    - rewrite length_app, Hpre, Hmid. do 2 f_equal. lia.
    - rewrite length_app, Hpre, Hmid. lia. }
  rewrite E1, E2.
  apply Permutation_app_tail. apply Permutation_app_head.
  symmetry. apply Permutation_rev.
Qed.

Section FirstScan.

Variable shops : list Shop.
Variable p : R.

Lemma try_reverse_scanned (order0 : list nat) (j : nat)
  (st st' : list nat * bool) :
  (2 <= j)%nat -> (j + 1 < length order0)%nat ->
  scanned shops order0 j st -> try_reverse shops p 0 j st = Ok st' ->
  scanned shops order0 (S j) st'.
Proof.
  intros Hj Hn [HP Hval] H. destruct st as [o f]. simpl in HP, Hval.
  pose proof (Permutation_length HP) as HL.
  unfold try_reverse in H.
  apply bind_ok in H. destruct H as (before & Hb & H).
  apply bind_ok in H. destruct H as (after & _ & H).
  pose proof (seg_cost_valid _ _ _ _ _ _ _ _ Hb) as Hlook. simpl in Hlook.
  assert (Hall : Forall (fun k => (k < length shops)%nat) (firstn (j + 2) o)).
  { destruct (Hlook (j + 1)%nat) as (kj1 & Ej1 & Vj1); [auto |].
    replace (j + 2)%nat with (S (j + 1)) by lia.
    rewrite (firstn_snoc _ _ _ Ej1). apply Forall_app. split.
    - destruct (Nat.eq_dec j 2) as [-> | Hne].
      + destruct (Hlook 0%nat) as (k0 & E0 & V0); [auto |].
        destruct (Hlook 1%nat) as (k1 & E1 & V1); [auto |].
        destruct (Hlook 2%nat) as (k2 & E2 & V2); [auto |].
        change (2 + 1)%nat with 3%nat.
        rewrite (firstn_snoc _ _ _ E2), (firstn_snoc _ _ _ E1),
          (firstn_snoc _ _ _ E0).
        simpl. repeat constructor; assumption.
      + apply Hval. lia.
    - constructor; [exact Vj1 | constructor]. }
  destruct (Rltb (after + tolerance) before); inversion H; subst; clear H.
  - split; cbn [fst].
    + etransitivity; [apply reverse_slice_perm; lia | exact HP].
    + intros _. replace (S j + 1)%nat with (j + 2)%nat by lia.
      eapply Permutation_Forall; [| exact Hall].
      symmetry. apply firstn_reverse_slice_perm; lia.
  - split; cbn [fst]; [exact HP |].
    intros _. replace (S j + 1)%nat with (j + 2)%nat by lia. exact Hall.
Qed.

Lemma first_scan_valid (order : list nat) (f : bool) (st' : list nat * bool) :
  (4 <= length order)%nat ->
  for_each (try_reverse shops p 0) (range (0 + 2) (length order - 1)) (order, f)
  = Ok st' ->
  valid_order shops order.
Proof.
  intros Hn Hrun. unfold range in Hrun.
  apply (for_each_seq_indexed (scanned shops order)) in Hrun.
  - destruct Hrun as [HP Hval].
    replace (0 + 2 + (length order - 1 - (0 + 2)))%nat
      with (length order - 1)%nat in Hval by lia.
    unfold valid_order.
    eapply Permutation_Forall; [exact HP |].
    assert (E : firstn (length order - 1 + 1) (fst st') = fst st').
    { apply firstn_all2. rewrite (Permutation_length HP). lia. }
    rewrite <- E. apply Hval. lia.
  - intros j s s' Hj. apply try_reverse_scanned; lia.
  - split; simpl; [reflexivity | lia].
Qed.

Lemma two_opt_pass_valid (order : list nat) (st : list nat * bool) :
  (4 <= length order)%nat ->
  two_opt_pass shops p (length order) order = Ok st ->
  valid_order shops order.
Proof.
  intros Hn H. unfold two_opt_pass, range in H.
  replace (length order - 3 - 0)%nat with (S (length order - 4)) in H by lia.
  simpl in H. apply bind_ok in H. destruct H as (st1 & H1 & _).
  eapply first_scan_valid; [exact Hn | exact H1].
Qed.

Lemma try_reverse_raise (i j : nat) (st : list nat * bool) (e : exn) :
  try_reverse shops p i j st = Raise e -> e = IndexError.
Proof.
  assert (Hshop : forall o k, shop_at o shops k = Raise e -> e = IndexError).
  { intros o k H. unfold shop_at in H.
    apply bind_raise in H. destruct H as [H | (a & _ & H)];
      eapply get_raise; exact H. }
  assert (Hseg : forall o i1 i2 j1 j2,
             seg_cost o shops p i1 i2 j1 j2 = Raise e -> e = IndexError).
  { intros o i1 i2 j1 j2 H. unfold seg_cost in H.
    apply bind_raise in H. destruct H as [H | (a & _ & H)]; [eauto |].
    apply bind_raise in H. destruct H as [H | (b & _ & H)]; [eauto |].
    apply bind_raise in H. destruct H as [H | (c & _ & H)]; [eauto |].
    apply bind_raise in H. destruct H as [H | (d & _ & H)]; [eauto |].
    discriminate. }
  destruct st as [o f]. unfold try_reverse. intros H.
  apply bind_raise in H. destruct H as [H | (b & _ & H)]; [eauto |].
  apply bind_raise in H. destruct H as [H | (a & _ & H)]; [eauto |].
  destruct (Rltb (a + tolerance) b); discriminate.
Qed.

Lemma two_opt_pass_raise (n : nat) (order : list nat) (e : exn) :
  two_opt_pass shops p n order = Raise e -> e = IndexError.
Proof.
  unfold two_opt_pass. intros H.
  apply for_each_raise in H. destruct H as (i & st & _ & H).
  apply for_each_raise in H. destruct H as (j & st1 & _ & H).
  eapply try_reverse_raise. exact H.
Qed.

Lemma two_opt_while_raise (n budget : nat) :
  forall (st : list nat * bool) (e : exn),
    two_opt_while shops p n budget st = Raise e -> e = IndexError.
Proof.
  induction budget as [| b IH]; intros [o f] e H; simpl in H.
  - destruct f; discriminate.
  - destruct f; [| discriminate].
    apply bind_raise in H. destruct H as [H | (st1 & _ & H)].
    + eapply two_opt_pass_raise. exact H.
    + eapply IH. exact H.
Qed.

End FirstScan.

(** On orders whose entries are positions: [two_opt] returns exactly when
    the order has fewer than four entries, or [max_passes] is not
    positive, or every entry is below the number of shops; in the first
    two cases it returns the order as it is, and in all other cases it
    raises [IndexError]. *)
Lemma two_opt_positions (order : list nat) (shops : list Shop)
  (floor_penalty : R) (max_passes : Z) :
  ((exists order', two_opt order shops floor_penalty max_passes = Ok order') <->
   (length order < 4)%nat \/ (max_passes <= 0)%Z \/ valid_order shops order) /\
  ((length order < 4)%nat \/ (max_passes <= 0)%Z ->
   two_opt order shops floor_penalty max_passes = Ok order) /\
  ((4 <= length order)%nat -> (0 < max_passes)%Z -> ~ valid_order shops order ->
   two_opt order shops floor_penalty max_passes = Raise IndexError).
Proof.
  assert (Hidle : (length order < 4)%nat \/ (max_passes <= 0)%Z ->
                  two_opt order shops floor_penalty max_passes = Ok order).
  { intros [Hn | Hm]; unfold two_opt, two_opt_run.
    - destruct (Nat.ltb_spec (length order) 4); [reflexivity | lia].
    - replace (Z.to_nat max_passes) with 0%nat by lia.
      destruct (Nat.ltb (length order) 4); reflexivity. }
  assert (Hvalid : forall o', (4 <= length order)%nat -> (0 < max_passes)%Z ->
                     two_opt order shops floor_penalty max_passes = Ok o' ->
                     valid_order shops order).
  { intros o' Hn Hm H. unfold two_opt, two_opt_run in H.
    destruct (Nat.ltb_spec (length order) 4); [lia |].
    destruct (Z.to_nat max_passes) as [| b] eqn:Eb; [lia |].
    apply bind_ok in H. destruct H as (st & H & _).
    simpl in H. apply bind_ok in H. destruct H as (st1 & H & _).
    eapply two_opt_pass_valid; eassumption. }
  split; [| split].
  - split.
    + intros (o' & H).
      destruct (le_lt_dec 4 (length order)) as [Hn | Hn]; [| left; exact Hn].
      destruct (Z_lt_le_dec 0 max_passes) as [Hm | Hm]; [| right; left; exact Hm].
      right. right. eapply Hvalid; eassumption.
    + intros [Hn | [Hm | Hv]].
      * exists order. apply Hidle. left. exact Hn.
      * exists order. apply Hidle. right. exact Hm.
      * apply two_opt_returns. exact Hv.
  - exact Hidle.
  - intros Hn Hm Hnv.
    destruct (two_opt order shops floor_penalty max_passes) as [o' | e] eqn:E.
    + exfalso. apply Hnv. exact (Hvalid o' Hn Hm eq_refl).
    + f_equal. unfold two_opt in E.
      apply bind_raise in E. destruct E as [E | (st & _ & E)]; [| discriminate].
      unfold two_opt_run in E.
      destruct (Nat.ltb (length order) 4); [discriminate |].
      eapply two_opt_while_raise. exact E.
Qed.

(** ** Orders of integers *)

Lemma py_item_position {A : Type} (l : list A) (k : Z) :
  py_item l k = get l (position (length l) k).
Proof.
  unfold py_item, position.
  destruct (0 <=? k)%Z; [reflexivity |].
  destruct (- Z.of_nat (length l) <=? k)%Z; [reflexivity |].
  unfold get.
  assert (E : nth_error l (length l) = None) by (apply nth_error_None; lia).
  rewrite E. reflexivity.
Qed.

Lemma position_valid (n : nat) (k : Z) :
  (position n k < n)%nat <-> (- Z.of_nat n <= k < Z.of_nat n)%Z.
Proof.
  unfold position.
  destruct (Z.leb_spec 0 k); [lia |].
  destruct (Z.leb_spec (- Z.of_nat n) k); lia.
Qed.

Lemma valid_positions (shops : list Shop) (order : list Z) :
  valid_order shops (map (position (length shops)) order) <->
  valid_subscripts shops order.
Proof.
  unfold valid_order, valid_subscripts. rewrite Forall_map.
  split; apply Forall_impl; intros k; apply position_valid.
Qed.

Lemma get_map {A B : Type} (f : A -> B) (l : list A) (i : nat) :
  get (map f l) i = on_ok f (get l i).
Proof.
  unfold get. rewrite nth_error_map. destruct (nth_error l i); reflexivity.
Qed.

Lemma on_ok_returns {A B : Type} (f : A -> B) (m : result A) :
  (exists b, on_ok f m = Ok b) <-> (exists a, m = Ok a).
Proof.
  destruct m as [a | e]; simpl; split; intros (v & H);
    try discriminate; eauto.
Qed.

Lemma on_ok_raise {A B : Type} (f : A -> B) (m : result A) (e : exn) :
  on_ok f m = Raise e <-> m = Raise e.
Proof.
  destruct m as [a | e1]; simpl; split; intros H;
    try discriminate; inversion H; reflexivity.
Qed.

Lemma for_each_ext {A S : Type} (f g : A -> S -> result S) (l : list A) :
  (forall a s, f a s = g a s) ->
  forall s, for_each f l s = for_each g l s.
Proof.
  intros H. induction l as [| a l IH]; intros s; [reflexivity |].
  simpl. rewrite H. destruct (g a s) as [s1 | e]; simpl;
    [apply IH | reflexivity].
Qed.

Lemma for_each_on_ok {A S T : Type} (phi : S -> T)
  (f : A -> S -> result S) (g : A -> T -> result T) (l : list A) :
  (forall a s, on_ok phi (f a s) = g a (phi s)) ->
  forall s, on_ok phi (for_each f l s) = for_each g l (phi s).
Proof.
  intros H. induction l as [| a l IH]; intros s; [reflexivity |].
  simpl. rewrite <- H.
  destruct (f a s) as [s1 | e]; simpl; [apply IH | reflexivity].
Qed.

Lemma reverse_slice_map {A B : Type} (f : A -> B) (l : list A) (lo hi : nat) :
  reverse_slice (map f l) lo hi = map f (reverse_slice l lo hi).
Proof.
  unfold reverse_slice.
  rewrite !skipn_map, !firstn_map, !map_app, map_rev. reflexivity.
Qed.

(** The loops on an order of integers do, entry for entry, what the loops
    of the main model do on the positions that the entries denote. *)
Section IntegerOrders.

Variable shops : list Shop.
Variable p : R.

Lemma shop_at_position (order : list Z) (i : nat) :
  IntOrder.shop_at order shops i
  = shop_at (map (position (length shops)) order) shops i.
Proof.
  unfold IntOrder.shop_at, shop_at. rewrite get_map.
  destruct (get order i) as [k | e]; simpl;
    [apply py_item_position | reflexivity].
Qed.

Lemma seg_cost_position (order : list Z) (i1 i2 j1 j2 : nat) :
  IntOrder.seg_cost order shops p i1 i2 j1 j2
  = seg_cost (map (position (length shops)) order) shops p i1 i2 j1 j2.
Proof.
  unfold IntOrder.seg_cost, seg_cost. rewrite !shop_at_position. reflexivity.
Qed.

Lemma try_reverse_position (i j : nat) (st : list Z * bool) :
  on_ok (on_order (position (length shops))) (IntOrder.try_reverse shops p i j st)
  = try_reverse shops p i j (on_order (position (length shops)) st).
Proof.
  destruct st as [o f]. unfold IntOrder.try_reverse, try_reverse, on_order.
  cbn [fst snd]. rewrite !seg_cost_position.
  destruct (seg_cost (map (position (length shops)) o) shops p i (i + 1) j (j + 1))
    as [before | e]; cbn [bind on_ok]; [| reflexivity].
  destruct (seg_cost (map (position (length shops)) o) shops p i j (i + 1) (j + 1))
    as [after | e]; cbn [bind on_ok]; [| reflexivity].
  destruct (Rltb (after + tolerance) before); cbn [on_ok fst snd];
    [rewrite reverse_slice_map |]; reflexivity.
Qed.

Lemma two_opt_pass_position (n : nat) (order : list Z) :
  on_ok (on_order (position (length shops)))
    (IntOrder.two_opt_pass shops p n order)
  = two_opt_pass shops p n (map (position (length shops)) order).
Proof.
  unfold IntOrder.two_opt_pass, two_opt_pass.
  change (map (position (length shops)) order, false)
    with (on_order (position (length shops)) (order, false)).
  apply for_each_on_ok. intros i s.
  apply for_each_on_ok. intros j t. apply try_reverse_position.
Qed.

Lemma two_opt_while_position (n budget : nat) :
  forall st : list Z * bool,
    on_ok (on_order (position (length shops)))
      (IntOrder.two_opt_while shops p n budget st)
    = two_opt_while shops p n budget (on_order (position (length shops)) st).
Proof.
  induction budget as [| b IH]; intros [o f];
    unfold on_order at 2; cbn [fst snd IntOrder.two_opt_while two_opt_while].
  - destruct f; reflexivity.
  - destruct f; [| reflexivity].
    rewrite <- two_opt_pass_position.
    destruct (IntOrder.two_opt_pass shops p n o) as [st1 | e];
      cbn [bind on_ok]; [apply IH | reflexivity].
Qed.

Lemma two_opt_position (order : list Z) (max_passes : Z) :
  on_ok (map (position (length shops)))
    (IntOrder.two_opt order shops p max_passes)
  = two_opt (map (position (length shops)) order) shops p max_passes.
Proof.
  unfold IntOrder.two_opt, two_opt, IntOrder.two_opt_run, two_opt_run.
  rewrite length_map.
  destruct (Nat.ltb (length order) 4); [reflexivity |].
  change (map (position (length shops)) order, true)
    with (on_order (position (length shops)) (order, true)).
  rewrite <- two_opt_while_position.
  destruct (IntOrder.two_opt_while shops p (length order)
              (Z.to_nat max_passes) (order, true)) as [[o f] | e];
    reflexivity.
Qed.

Lemma path_length_position (order : list Z) :
  IntOrder.path_length order shops p
  = path_length (map (position (length shops)) order) shops p.
Proof.
  unfold IntOrder.path_length, path_length. rewrite length_map.
  apply for_each_ext. intros i acc. rewrite !get_map.
  destruct (get order i) as [oi | e]; cbn [bind on_ok]; [| reflexivity].
  rewrite py_item_position.
  destruct (get shops (position (length shops) oi)) as [a | e];
    cbn [bind]; [| reflexivity].
  destruct (get order (i + 1)) as [oj | e]; cbn [bind on_ok]; [| reflexivity].
  rewrite py_item_position. reflexivity.
Qed.

End IntegerOrders.

(** X2: [path_length] of an order of integers with fewer than two entries
    is 0 and looks up no shop; with two or more entries it is defined
    exactly when every entry is a subscript that [shops] accepts, from
    [-n] to [n - 1] for [n] shops, and otherwise raises [IndexError].  A
    negative entry counts from the end: the length is that of the order
    of the positions that the entries denote. *)
Theorem path_length_defined (order : list Z) (shops : list Shop) (p : R) :
  ((length order < 2)%nat -> IntOrder.path_length order shops p = Ok 0) /\
  ((2 <= length order)%nat ->
   ((exists c, IntOrder.path_length order shops p = Ok c) <->
    valid_subscripts shops order)) /\
  ((2 <= length order)%nat -> ~ valid_subscripts shops order ->
   IntOrder.path_length order shops p = Raise IndexError) /\
  IntOrder.path_length order shops p
  = path_length (map (position (length shops)) order) shops p.
Proof.
  pose proof (path_length_position shops p order) as E.
  pose proof (path_length_positions (map (position (length shops)) order) shops p)
    as (H0 & Hiff & Hraise).
  rewrite length_map in H0, Hiff, Hraise.
  rewrite <- E in H0, Hiff, Hraise.
  split; [exact H0 |]. split; [| split; [| exact E]].
  - intros Hn. rewrite (Hiff Hn). apply valid_positions.
  - intros Hn Hnv. apply (Hraise Hn). intros Hv. apply Hnv.
    apply valid_positions. exact Hv.
Qed.

Lemma path_length_defined_witness :
  ((2 <= length [0; -1]%Z)%nat /\ valid_subscripts square [0; -1]%Z /\
   exists c, IntOrder.path_length [0; -1]%Z square 50 = Ok c) /\
  ((2 <= length [0; -5]%Z)%nat /\ ~ valid_subscripts square [0; -5]%Z /\
   IntOrder.path_length [0; -5]%Z square 50 = Raise IndexError).
Proof.
  assert (Hn : (2 <= 2)%nat) by lia.
  assert (Hv : valid_subscripts square [0; -1]%Z).
  { unfold valid_subscripts, square. repeat constructor; simpl; lia. }
  assert (Hnv : ~ valid_subscripts square [0; -5]%Z).
  { intros H. unfold valid_subscripts in H.
    apply Forall_cons_iff in H. destruct H as [_ H].
    apply Forall_cons_iff in H. destruct H as [H _]. simpl in H. lia. }
  split.
  - split; [exact Hn |]. split; [exact Hv |].
    apply (proj2 (proj1 (proj2 (path_length_defined [0; -1]%Z square 50)) Hn)).
    exact Hv.
  - split; [exact Hn |]. split; [exact Hnv |].
    apply (proj1 (proj2 (proj2 (path_length_defined [0; -5]%Z square 50)))
             Hn Hnv).
Defined.

(** X7: [two_opt] on an order of integers returns exactly when the order
    has fewer than four entries, or [max_passes] is not positive, or
    every entry is a subscript that [shops] accepts, from [-n] to [n - 1]
    for [n] shops; in the first two cases it returns the order as it is,
    without looking at any shop, and in all other cases it raises
    [IndexError].  A negative entry counts from the end: the run is,
    entry for entry, the run on the positions that the entries denote. *)
Theorem two_opt_returns_iff (order : list Z) (shops : list Shop)
  (floor_penalty : R) (max_passes : Z) :
  ((exists order',
       IntOrder.two_opt order shops floor_penalty max_passes = Ok order') <->
   (length order < 4)%nat \/ (max_passes <= 0)%Z \/
   valid_subscripts shops order) /\
  ((length order < 4)%nat \/ (max_passes <= 0)%Z ->
   IntOrder.two_opt order shops floor_penalty max_passes = Ok order) /\
  ((4 <= length order)%nat -> (0 < max_passes)%Z ->
   ~ valid_subscripts shops order ->
   IntOrder.two_opt order shops floor_penalty max_passes = Raise IndexError) /\
  on_ok (map (position (length shops)))
    (IntOrder.two_opt order shops floor_penalty max_passes)
  = two_opt (map (position (length shops)) order) shops floor_penalty max_passes.
Proof.
  pose proof (two_opt_position shops floor_penalty order max_passes) as E.
  pose proof (two_opt_positions (map (position (length shops)) order) shops
                floor_penalty max_passes) as (Hiff & _ & Hraise).
  rewrite length_map in Hiff, Hraise.
  rewrite <- E in Hiff, Hraise.
  rewrite on_ok_returns in Hiff. rewrite on_ok_raise in Hraise.
  split; [| split; [| split; [| exact E]]].
  - rewrite Hiff. rewrite valid_positions. reflexivity.
  - intros [Hn | Hm]; unfold IntOrder.two_opt, IntOrder.two_opt_run.
    + destruct (Nat.ltb_spec (length order) 4); [reflexivity | lia].
    + replace (Z.to_nat max_passes) with 0%nat by lia.
      destruct (Nat.ltb (length order) 4); reflexivity.
  - intros Hn Hm Hnv. apply (Hraise Hn Hm). intros Hv. apply Hnv.
    apply valid_positions. exact Hv.
Qed.

Lemma two_opt_returns_iff_witness :
  (valid_subscripts square [0; 1; 2; -1]%Z /\
   exists order', IntOrder.two_opt [0; 1; 2; -1]%Z square 50 20 = Ok order') /\
  ((4 <= length [0; 1; 2; -5]%Z)%nat /\ (0 < 20)%Z /\
   ~ valid_subscripts square [0; 1; 2; -5]%Z /\
   IntOrder.two_opt [0; 1; 2; -5]%Z square 50 20 = Raise IndexError).
Proof.
  assert (Hv : valid_subscripts square [0; 1; 2; -1]%Z).
  { unfold valid_subscripts, square. repeat constructor; simpl; lia. }
  assert (Hn : (4 <= length [0; 1; 2; -5]%Z)%nat) by (simpl; lia).
  assert (Hm : (0 < 20)%Z) by lia.
  assert (Hnv : ~ valid_subscripts square [0; 1; 2; -5]%Z).
  { intros H. unfold valid_subscripts in H. rewrite Forall_forall in H.
    specialize (H (-5)%Z). simpl in H.
    assert (- 4 <= - 5 < 4)%Z by (apply H; auto). lia. }
  split.
  - split; [exact Hv |].
    apply (proj2 (proj1 (two_opt_returns_iff [0; 1; 2; -1]%Z square 50 20))).
    right. right. exact Hv.
  - split; [exact Hn |]. split; [exact Hm |]. split; [exact Hnv |].
    apply (proj1 (proj2 (proj2 (two_opt_returns_iff [0; 1; 2; -5]%Z square 50 20)))
             Hn Hm Hnv).
Defined.

(** ** The refinement: convergence and composition *)

Section Converged.

Variable shops : list Shop.
Variable p : R.

Lemma try_reverse_keeps_true (i j : nat) (st st' : list nat * bool) :
  snd st = true -> try_reverse shops p i j st = Ok st' -> snd st' = true.
Proof.
  destruct st as [o f], st' as [o' f']. simpl. intros -> H.
  apply try_reverse_flag in H. destruct H as [[_ ->] | ->]; reflexivity.
Qed.

Lemma inner_keeps_true (i : nat) (l : list nat) (st st' : list nat * bool) :
  snd st = true -> for_each (try_reverse shops p i) l st = Ok st' ->
  snd st' = true.
Proof.
  intros Ht H.
  eapply (for_each_preserves (fun s => snd s = true)); [| exact Ht | exact H].
  intros j s s' _ Hs Hrun. eapply try_reverse_keeps_true; eassumption.
Qed.

Lemma inner_quiet (i : nat) (l : list nat) :
  forall (o o' : list nat),
    for_each (try_reverse shops p i) l (o, false) = Ok (o', false) ->
    o' = o /\
    forall j, In j l -> try_reverse shops p i j (o, false) = Ok (o, false).
Proof.
  induction l as [| a l IH]; intros o o' H; simpl in H.
  - inversion H; subst. split; [reflexivity | intros j []].
  - apply bind_ok in H. destruct H as ([o1 f1] & H1 & H2).
    destruct f1.
    + apply inner_keeps_true in H2; [discriminate | reflexivity].
    + pose proof (try_reverse_flag _ _ _ _ _ _ _ _ H1) as [[-> _] | Hf];
        [| discriminate].
      destruct (IH o o' H2) as [-> Hall].
      split; [reflexivity |].
      intros j [<- | Hj]; [exact H1 | apply Hall; exact Hj].
Qed.

Lemma outer_quiet (n : nat) (l : list nat) :
  forall (o o' : list nat),
    for_each
      (fun i st =>
         for_each (try_reverse shops p i) (range (i + 2) (n - 1)) st)
      l (o, false) = Ok (o', false) ->
    o' = o /\
    forall i j, In i l -> In j (range (i + 2) (n - 1)) ->
                try_reverse shops p i j (o, false) = Ok (o, false).
Proof.
  induction l as [| a l IH]; intros o o' H; simpl in H.
  - inversion H; subst. split; [reflexivity | intros i j []].
  - apply bind_ok in H. destruct H as ([o1 f1] & H1 & H2).
    destruct f1.
    + assert (Ht : snd (o', false) = true).
      { eapply (for_each_preserves (fun s => snd s = true)); [| | exact H2].
        - intros i s s' _ Hs Hrun. cbv beta in Hrun.
          exact (inner_keeps_true i _ s s' Hs Hrun).
        - reflexivity. }
      discriminate.
    + destruct (inner_quiet _ _ _ _ H1) as [-> Hin].
      destruct (IH o o' H2) as [-> Hall].
      split; [reflexivity |].
      intros i j [<- | Hi] Hj; [apply Hin; exact Hj | apply Hall; assumption].
Qed.

Lemma two_opt_while_add (n a : nat) :
  forall (b : nat) (o o1 : list nat) (f1 : bool),
    two_opt_while shops p n a (o, true) = Ok (o1, f1) ->
    two_opt_while shops p n (a + b) (o, true)
    = if f1 then two_opt_while shops p n b (o1, true) else Ok (o1, false).
Proof.
  induction a as [| a IH]; intros b o o1 f1 H.
  - simpl in H. inversion H; subst. reflexivity.
  - simpl in H. apply bind_ok in H. destruct H as ([o2 f2] & Hp & Hw).
    change (S a + b)%nat with (S (a + b)). cbn [two_opt_while].
    rewrite Hp. cbn [bind].
    destruct f2.
    + apply IH. exact Hw.
    + assert (E : (o1, f1) = (o2, false))
        by (destruct a; simpl in Hw; inversion Hw; reflexivity).
      inversion E; subst.
      destruct (a + b)%nat; reflexivity.
Qed.

End Converged.

(** X8: when [two_opt] stops because a pass made no reversal (the variable
    [improved] is [False] at the return), the order returned is a local
    optimum of the 2-opt move as the code tests it: one more pass over it
    makes no reversal, the test [after + 1e-9 < before] fails at every
    scanned pair, and so no improving move applies to it. *)
Theorem two_opt_local_optimum (order order' : list nat) (shops : list Shop)
  (floor_penalty : R) (max_passes : Z) :
  two_opt_run order shops floor_penalty max_passes = Ok (order', false) ->
  two_opt_pass shops floor_penalty (length order') order' = Ok (order', false) /\
  (forall i j : nat,
      (i + 2 <= j)%nat -> (j + 1 < length order')%nat ->
      try_reverse shops floor_penalty i j (order', false) = Ok (order', false)) /\
  (forall o, ~ improves shops floor_penalty order' o).
Proof.
  intros Hrun.
  pose proof (two_opt_run_invariant _ _ _ _ _ _ Hrun) as [HL HS].
  unfold two_opt_run in Hrun.
  destruct (Nat.ltb (length order) 4) eqn:E4; [discriminate |].
  apply two_opt_while_converged in Hrun. destruct Hrun as [_ Hpass].
  rewrite <- HL in Hpass.
  split; [exact Hpass |].
  unfold two_opt_pass in Hpass.
  apply outer_quiet in Hpass. destruct Hpass as [_ Hquiet].
  assert (Hq : forall i j : nat,
             (i + 2 <= j)%nat -> (j + 1 < length order')%nat ->
             try_reverse shops floor_penalty i j (order', false)
             = Ok (order', false)).
  { intros i j Hij Hj. apply Hquiet; apply in_range; lia. }
  split; [exact Hq |].
  intros o Himp.
  destruct Himp as [o i j before after Hij Hj Hb Ha Hlt].
  specialize (Hq i j Hij Hj). unfold try_reverse in Hq.
  rewrite Hb, Ha in Hq. cbn [bind] in Hq.
  rewrite (proj2 (Rltb_true _ _) Hlt) in Hq. discriminate.
Qed.

Lemma two_opt_local_optimum_witness :
  two_opt_run [0; 1; 2; 3]%nat square 50 20 = Ok ([0; 1; 2; 3]%nat, false) /\
  two_opt_pass square 50 (length [0; 1; 2; 3]%nat) [0; 1; 2; 3]%nat
  = Ok ([0; 1; 2; 3]%nat, false) /\
  forall o, ~ improves square 50 [0; 1; 2; 3]%nat o.
Proof.
  split; [exact square_two_opt_run |]. split.
  - apply (proj1 (two_opt_local_optimum _ _ _ _ _ square_two_opt_run)).
  - apply (proj2 (proj2 (two_opt_local_optimum _ _ _ _ _ square_two_opt_run))).
Defined.

(** X9: passes compose.  Refining with [a] passes and then refining the
    result with [b] more passes gives what one refinement with [a + b]
    passes gives. *)
Theorem two_opt_passes_add (order o1 : list nat) (shops : list Shop)
  (floor_penalty : R) (a b : Z) :
  (0 <= a)%Z -> (0 <= b)%Z ->
  two_opt order shops floor_penalty a = Ok o1 ->
  two_opt o1 shops floor_penalty b = two_opt order shops floor_penalty (a + b).
Proof.
  intros Ha Hb H.
  pose proof (two_opt_improves _ _ _ _ _ H) as [HL _].
  unfold two_opt, two_opt_run in *. rewrite HL.
  destruct (Nat.ltb (length order) 4) eqn:E4.
  - simpl in H. inversion H; subst. reflexivity.
  - apply bind_ok in H. destruct H as ([o2 f1] & Hw & E).
    inversion E; subst o2; clear E.
    rewrite Z2Nat.inj_add by assumption.
    rewrite (two_opt_while_add shops floor_penalty _ _ (Z.to_nat b) _ _ _ Hw).
    destruct f1; [reflexivity |].
    apply two_opt_while_converged in Hw. destruct Hw as [_ Hpass].
    destruct (Z.to_nat b) as [| k]; [reflexivity |].
    cbn [two_opt_while]. rewrite Hpass. cbn [bind].
    destruct k; reflexivity.
Qed.

Lemma two_opt_passes_add_witness :
  (0 <= 1)%Z /\ (0 <= 1)%Z /\
  two_opt [0; 1; 2; 3; 4]%nat corridor 1 1 = Ok [0; 3; 2; 1; 4]%nat /\
  two_opt [0; 3; 2; 1; 4]%nat corridor 1 1
  = two_opt [0; 1; 2; 3; 4]%nat corridor 1 (1 + 1).
Proof.
  assert (H : two_opt [0; 1; 2; 3; 4]%nat corridor 1 1 = Ok [0; 3; 2; 1; 4]%nat)
    by (unfold two_opt; rewrite corridor_first_run; reflexivity).
  split; [lia |]. split; [lia |]. split; [exact H |].
  apply (two_opt_passes_add _ _ _ _ 1%Z 1%Z); [lia | lia | exact H].
Defined.

(** ** The entry point on small malls *)

(** X10: for a non-negative penalty the total returned by
    [compute_efficient_path] is never negative, and it is 0 for at most
    one shop; for fewer than four shops the refinement is idle and the
    tour is the nearest-neighbour order. *)
Theorem compute_efficient_path_total (shops : list Shop) (floor_penalty : R) :
  0 <= floor_penalty ->
  exists order total,
    compute_efficient_path shops floor_penalty = Ok (order, total) /\
    0 <= total /\
    ((length shops < 4)%nat -> nearest_neighbor shops floor_penalty = Ok order) /\
    ((length shops <= 1)%nat -> total = 0).
Proof.
  intros Hp.
  destruct (compute_efficient_path_spec shops floor_penalty)
    as (init & order & total & c0 & Hinit & Hperm & Htwo & HS & _ & Htotal & _ & Hrun).
  pose proof (Permutation_length Hperm) as HLi. rewrite length_seq in HLi.
  pose proof (improves_star_length _ _ _ _ HS) as HLo.
  assert (Hv : valid_order shops order).
  { eapply improves_star_valid; [exact HS |]. apply seq_valid. exact Hperm. }
  exists order, total. split; [exact Hrun |]. split; [| split].
  - rewrite (path_length_chain _ _ _ ground Hv) in Htotal.
    inversion Htotal; subst. apply chain_cost_nonneg.
    intros a b. unfold edge. apply step_cost_nonneg. exact Hp.
  - intros Hn.
    assert (E : two_opt init shops floor_penalty default_max_passes = Ok init).
    { apply (proj1 (proj2 (two_opt_positions init shops floor_penalty
                             default_max_passes))).
      left. lia. }
    assert (order = init) by congruence. subst. exact Hinit.
  - intros Hn.
    assert (E : path_length order shops floor_penalty = Ok 0).
    { apply (proj1 (path_length_positions order shops floor_penalty)). lia. }
    congruence.
Qed.

Lemma compute_efficient_path_total_witness :
  0 <= 50 /\
  exists order total,
    compute_efficient_path [ground; upstairs] 50 = Ok (order, total) /\
    0 <= total /\
    ((length [ground; upstairs] < 4)%nat ->
     nearest_neighbor [ground; upstairs] 50 = Ok order) /\
    ((length [ground; upstairs] <= 1)%nat -> total = 0).
Proof.
  split; [lra |].
  apply (compute_efficient_path_total [ground; upstairs] 50). lra.
Defined.

(** * The mall generator and the walking time *)

(** ** Generation of a mall *)

Section Generation.

Variable s : nat -> R.

Lemma add_shop_step (floor shop_id : Z) (L : list Shop) (d : nat) :
  Mall.add_shop floor shop_id (L, Mall.mk_rng s d)
  = (L ++ [Mall.drawn_shop s floor shop_id d], Mall.mk_rng s (d + 2)).
Proof.
  unfold Mall.add_shop, Mall.uniform, Mall.random, Mall.drawn_shop. simpl.
  replace (d + 2)%nat with (S (S d)) by lia. reflexivity.
Qed.

Lemma inner_loop_closed (floor : Z) (len : nat) :
  forall (a : nat) (L : list Shop) (d : nat),
    fold_left (fun st shop_id => Mall.add_shop floor shop_id st)
      (map (fun k => (1 + Z.of_nat k)%Z) (seq a len)) (L, Mall.mk_rng s d)
    = (L ++ map (fun k => Mall.drawn_shop s floor (1 + Z.of_nat k) (d + 2 * (k - a)))
              (seq a len),
       Mall.mk_rng s (d + 2 * len)).
Proof.
  induction len as [| len IH]; intros a L d.
  - simpl. rewrite app_nil_r. do 2 f_equal. lia.
  - cbn [seq map fold_left]. rewrite add_shop_step. rewrite IH.
    f_equal; [| f_equal; lia].
    rewrite <- app_assoc. f_equal. cbn [app]. f_equal.
    + f_equal. lia.
    + apply map_ext_in. intros k Hk. apply in_seq in Hk. f_equal. lia.
Qed.

Lemma outer_loop_closed (per_floor : nat) (len : nat) :
  forall (b : nat) (L : list Shop) (d : nat),
    fold_left
      (fun st floor =>
         fold_left (fun st shop_id => Mall.add_shop floor shop_id st)
           (map (fun k => (1 + Z.of_nat k)%Z) (seq 0 per_floor)) st)
      (map (fun i => (1 + Z.of_nat i)%Z) (seq b len)) (L, Mall.mk_rng s d)
    = (L ++ flat_map
              (fun i =>
                 map (fun k => Mall.drawn_shop s (1 + Z.of_nat i) (1 + Z.of_nat k)
                                 (d + 2 * (per_floor * (i - b) + k)))
                   (seq 0 per_floor))
              (seq b len),
       Mall.mk_rng s (d + 2 * (len * per_floor))).
Proof.
  induction len as [| len IH]; intros b L d.
  - simpl. rewrite app_nil_r. do 2 f_equal. lia.
  - cbn [seq map fold_left flat_map]. rewrite inner_loop_closed. rewrite IH.
    f_equal; [| f_equal; lia].
    rewrite <- app_assoc. f_equal. f_equal.
    + apply map_ext_in. intros k Hk. f_equal. lia.
    + rewrite !flat_map_concat_map. f_equal. apply map_ext_in.
      intros i Hi. apply in_seq in Hi.
      apply map_ext_in. intros k Hk. f_equal. nia.
Qed.

End Generation.

Lemma zrange_from_one (n : Z) :
  Mall.zrange 1 (n + 1) = map (fun k => (1 + Z.of_nat k)%Z) (seq 0 (Z.to_nat n)).
Proof. unfold Mall.zrange. do 2 f_equal. lia. Qed.

Lemma in_zrange_from_one (n i : Z) :
  In i (Mall.zrange 1 (n + 1)) <-> (1 <= i <= n)%Z.
Proof.
  rewrite zrange_from_one, in_map_iff. split.
  - intros (k & <- & Hk). apply in_seq in Hk. lia.
  - intros H. exists (Z.to_nat (i - 1)). split; [lia |]. apply in_seq. lia.
Qed.

Lemma zrange_NoDup (n : Z) : NoDup (Mall.zrange 1 (n + 1)).
Proof.
  rewrite zrange_from_one. apply Finite.Injective_map_NoDup.
  - intros a b H. lia.
  - apply seq_NoDup.
Qed.

(** The shops that a call of [generate_mall] appends. *)
Lemma generate_mall_closed (self : Mall.t) (g : Mall.rng) :
  Mall.generate_mall self g
  = (Mall.mk (Mall.num_floors self) (Mall.num_shops_per_floor self)
       (Mall.shops self ++
        flat_map
          (fun floor =>
             map (Mall.generated_shop (Mall.num_shops_per_floor self)
                    (Mall.stream g) (Mall.drawn g) floor)
               (Mall.zrange 1 (Mall.num_shops_per_floor self + 1)))
          (Mall.zrange 1 (Mall.num_floors self + 1))),
     Mall.mk_rng (Mall.stream g)
       (Mall.drawn g
        + 2 * (Z.to_nat (Mall.num_floors self)
               * Z.to_nat (Mall.num_shops_per_floor self)))).
Proof.
  destruct self as [F S L], g as [s d]. unfold Mall.generate_mall. simpl.
  rewrite !zrange_from_one. rewrite outer_loop_closed.
  f_equal. f_equal. f_equal.
  rewrite !flat_map_concat_map, map_map. f_equal.
  apply map_ext_in. intros i Hi. apply in_seq in Hi.
  rewrite map_map. apply map_ext_in. intros k Hk. apply in_seq in Hk.
  unfold Mall.generated_shop. f_equal. nia.
Qed.

(** ** Names of generated shops *)

Lemma uint_string_free (d : Decimal.uint) :
  Mall.free_of "_"%char (DecimalString.NilEmpty.string_of_uint d).
Proof. induction d; simpl; (split; [discriminate | assumption]) || exact I. Qed.

Lemma py_str_free (n : Z) : Mall.free_of "_"%char (Mall.py_str n).
Proof.
  unfold Mall.py_str. destruct n as [| q | q]; simpl.
  - split; [discriminate | exact I].
  - unfold DecimalString.NilZero.string_of_uint.
    destruct (Pos.to_uint q) eqn:E; try (rewrite <- E; apply uint_string_free).
    simpl. split; [discriminate | exact I].
  - split; [discriminate |].
    unfold DecimalString.NilZero.string_of_uint.
    destruct (Pos.to_uint q) eqn:E; try (rewrite <- E; apply uint_string_free).
    simpl. split; [discriminate | exact I].
Qed.

Lemma py_str_inj (n n' : Z) : Mall.py_str n = Mall.py_str n' -> n = n'.
Proof.
  unfold Mall.py_str. intros H.
  apply DecimalZ.to_int_inj.
  assert (Hd : forall z, Z.to_int z <> Decimal.Pos Decimal.Nil /\
                         Z.to_int z <> Decimal.Neg Decimal.Nil).
  { intros [| q | q]; simpl; split; try discriminate;
      intros E; inversion E as [E'];
      exact (DecimalPos.Unsigned.to_uint_nonnil q E'). }
  destruct (Hd n) as [H1 H2]. destruct (Hd n') as [H1' H2'].
  pose proof (DecimalString.NilZero.isi _ H1 H2) as E.
  pose proof (DecimalString.NilZero.isi _ H1' H2') as E'.
  rewrite H in E. congruence.
Qed.

Lemma split_at_separator (c : Ascii.ascii) (a a' r r' : string) :
  Mall.free_of c a -> Mall.free_of c a' ->
  (a ++ String c r)%string = (a' ++ String c r')%string ->
  a = a' /\ r = r'.
Proof.
  revert a'. induction a as [| u a IH]; intros [| u' a'] Ha Ha' H; simpl in *.
  - inversion H. auto.
  - inversion H; subst. destruct Ha' as [Hne _]. contradiction.
  - inversion H; subst. destruct Ha as [Hne _]. contradiction.
  - inversion H; subst. destruct Ha as [_ Ha]. destruct Ha' as [_ Ha'].
    destruct (IH a' Ha Ha' H2) as [-> ->]. auto.
Qed.

Lemma shop_name_inj (f i f' i' : Z) :
  Mall.shop_name f i = Mall.shop_name f' i' -> f = f' /\ i = i'.
Proof.
  unfold Mall.shop_name. intros H.
  simpl in H. inversion H as [H1]. clear H.
  apply split_at_separator in H1; try apply py_str_free.
  destruct H1 as [Hf Hi].
  split; apply py_str_inj; assumption.
Qed.

(** ** What [generate_mall] makes *)

Lemma flat_map_length_const {A B : Type} (f : A -> list B) (l : list A) (c : nat) :
  (forall a, In a l -> length (f a) = c) ->
  length (flat_map f l) = (length l * c)%nat.
Proof.
  induction l as [| a l IH]; intros H; [reflexivity |].
  simpl. rewrite length_app.
  rewrite IH by (intros b Hb; apply H; right; exact Hb).
  rewrite (H a) by (left; reflexivity). reflexivity.
Qed.

Lemma generated_shops_length (self : Mall.t) (g : Mall.rng) :
  length (Mall.generated_shops self g)
  = (Z.to_nat (Mall.num_floors self) * Z.to_nat (Mall.num_shops_per_floor self))%nat.
Proof.
  unfold Mall.generated_shops. rewrite (flat_map_length_const _ _ (Z.to_nat (Mall.num_shops_per_floor self))).
  - rewrite zrange_from_one, length_map, length_seq. reflexivity.
  - intros a _. rewrite length_map, zrange_from_one, length_map, length_seq.
    reflexivity.
Qed.

Lemma in_generated_shops (self : Mall.t) (g : Mall.rng) (shop : Shop) :
  In shop (Mall.generated_shops self g) <->
  exists floor shop_id,
    (1 <= floor <= Mall.num_floors self)%Z /\
    (1 <= shop_id <= Mall.num_shops_per_floor self)%Z /\
    shop = Mall.generated_shop (Mall.num_shops_per_floor self)
             (Mall.stream g) (Mall.drawn g) floor shop_id.
Proof.
  unfold Mall.generated_shops. rewrite in_flat_map. split.
  - intros (f & Hf & Hin). apply in_map_iff in Hin.
    destruct Hin as (i & <- & Hi).
    apply in_zrange_from_one in Hf, Hi. exists f, i. auto.
  - intros (f & i & Hf & Hi & ->). exists f. split.
    + apply in_zrange_from_one. exact Hf.
    + apply in_map. apply in_zrange_from_one. exact Hi.
Qed.

Lemma generated_names_NoDup (self : Mall.t) (g : Mall.rng) :
  NoDup (map name (Mall.generated_shops self g)).
Proof.
  unfold Mall.generated_shops.
  set (ids := Mall.zrange 1 (Mall.num_shops_per_floor self + 1)).
  assert (Hids : NoDup ids) by apply zrange_NoDup.
  assert (Hfl : NoDup (Mall.zrange 1 (Mall.num_floors self + 1)))
    by apply zrange_NoDup.
  induction (Mall.zrange 1 (Mall.num_floors self + 1)) as [| f fl IH].
  - constructor.
  - apply NoDup_cons_iff in Hfl. destruct Hfl as [Hnf Hfl].
    simpl. rewrite map_app. apply NoDup_app.
    + rewrite map_map. apply Finite.Injective_map_NoDup; [| exact Hids].
      intros i i' H. simpl in H. apply shop_name_inj in H. apply H.
    + apply IH. exact Hfl.
    + intros nm H1 H2.
      apply in_map_iff in H1. destruct H1 as (s1 & <- & H1).
      apply in_map_iff in H1. destruct H1 as (i & <- & _).
      apply in_map_iff in H2. destruct H2 as (s2 & E & H2).
      apply in_flat_map in H2. destruct H2 as (f' & Hf' & H2).
      apply in_map_iff in H2. destruct H2 as (i' & <- & _).
      simpl in E. apply shop_name_inj in E. destruct E as [-> _].
      contradiction.
Qed.

Lemma find_by_name_unique (l : list Shop) (shop : Shop) :
  NoDup (map name l) -> In shop l ->
  find (fun s => String.eqb (name s) (name shop)) l = Some shop.
Proof.
  induction l as [| a l IH]; intros Hnd Hin; [destruct Hin |].
  simpl in Hnd. apply NoDup_cons_iff in Hnd. destruct Hnd as [Hna Hnd].
  simpl. destruct Hin as [-> | Hin].
  - rewrite String.eqb_refl. reflexivity.
  - destruct (String.eqb_spec (name a) (name shop)) as [E | _].
    + exfalso. apply Hna. rewrite E. apply in_map. exact Hin.
    + apply IH; assumption.
Qed.

Lemma generate_mall_shops (self : Mall.t) (g : Mall.rng) :
  Mall.shops (fst (Mall.generate_mall self g)) = Mall.shops self ++ Mall.generated_shops self g.
Proof. rewrite generate_mall_closed. reflexivity. Qed.

(** X11: [generate_mall] keeps the shops already in the mall and appends
    after them one shop for each floor [1 .. num_floors] and each
    identifier [1 .. num_shops_per_floor], floor by floor, taking two draws
    of the generator for each: [num_floors * num_shops_per_floor] shops,
    none when one of the two numbers is not positive. *)
Theorem generate_mall_appends (self : Mall.t) (g : Mall.rng) :
  Mall.generate_mall self g
  = (Mall.mk (Mall.num_floors self) (Mall.num_shops_per_floor self)
       (Mall.shops self ++ Mall.generated_shops self g),
     Mall.mk_rng (Mall.stream g)
       (Mall.drawn g
        + 2 * (Z.to_nat (Mall.num_floors self)
               * Z.to_nat (Mall.num_shops_per_floor self)))) /\
  length (Mall.generated_shops self g)
  = (Z.to_nat (Mall.num_floors self)
     * Z.to_nat (Mall.num_shops_per_floor self))%nat.
Proof.
  split; [apply generate_mall_closed | apply generated_shops_length].
Qed.

(** X12: every shop that [generate_mall] appends lies on a floor between
    1 and [num_floors], is named [Shop_<floor>_<id>] for an identifier
    between 1 and [num_shops_per_floor], and has its coordinates in
    [0, 100] when the generator draws from [0, 1). *)
Theorem generated_shops_wellformed (self : Mall.t) (g : Mall.rng) (shop : Shop) :
  In shop (Mall.generated_shops self g) ->
  (1 <= floor shop <= Mall.num_floors self)%Z /\
  (exists shop_id,
      (1 <= shop_id <= Mall.num_shops_per_floor self)%Z /\
      name shop = Mall.shop_name (floor shop) shop_id) /\
  ((forall k, 0 <= Mall.stream g k < 1) ->
   0 <= x shop <= 100 /\ 0 <= y shop <= 100).
Proof.
  intros H. apply in_generated_shops in H. destruct H as (f & i & Hf & Hi & ->).
  unfold Mall.generated_shop, Mall.drawn_shop. simpl.
  split; [exact Hf |]. split; [exists i; auto |].
  intros Hs.
  split; match goal with |- _ <= 0 + (100 - 0) * Mall.stream g ?k <= _ =>
                           specialize (Hs k); lra end.
Qed.

(** In a mall generated from an empty one every name is found at the shop
    generated for its floor and identifier. *)
Lemma generated_names_found (num_floors num_shops_per_floor : Z) (g : Mall.rng)
  (floor shop_id : Z) :
  (1 <= floor <= num_floors)%Z ->
  (1 <= shop_id <= num_shops_per_floor)%Z ->
  find (fun shop => String.eqb (name shop) (Mall.shop_name floor shop_id))
    (Mall.shops (fst (Mall.generate_mall
                        (Mall.init num_floors num_shops_per_floor) g)))
  = Some (Mall.generated_shop num_shops_per_floor (Mall.stream g)
            (Mall.drawn g) floor shop_id).
Proof.
  intros Hf Hi. rewrite generate_mall_shops.
  set (shop := Mall.generated_shop num_shops_per_floor (Mall.stream g)
                 (Mall.drawn g) floor shop_id).
  change (Mall.shop_name floor shop_id) with (name shop).
  apply find_by_name_unique.
  - apply generated_names_NoDup.
  - apply in_generated_shops. exists floor, shop_id. auto.
Qed.

(** X13: in a mall generated from an empty one no two shops share a name,
    and the lookup of the name [Shop_<floor>_<id>] returns the coordinates
    and the floor of the shop generated for that floor and identifier. *)
Theorem generated_lookup (num_floors num_shops_per_floor : Z) (g : Mall.rng) :
  let mall := fst (Mall.generate_mall (Mall.init num_floors num_shops_per_floor) g) in
  NoDup (map name (Mall.shops mall)) /\
  forall floor shop_id,
    (1 <= floor <= num_floors)%Z ->
    (1 <= shop_id <= num_shops_per_floor)%Z ->
    Mall.get_shop_coordinates mall (Mall.shop_name floor shop_id)
    = Some (x (Mall.generated_shop num_shops_per_floor (Mall.stream g)
                 (Mall.drawn g) floor shop_id),
            y (Mall.generated_shop num_shops_per_floor (Mall.stream g)
                 (Mall.drawn g) floor shop_id),
            floor).
Proof.
  intros mall.
  assert (Hs : Mall.shops mall
               = Mall.generated_shops (Mall.init num_floors num_shops_per_floor) g).
  { unfold mall. rewrite generate_mall_shops. reflexivity. }
  assert (Hnd : NoDup (map name (Mall.shops mall)))
    by (rewrite Hs; apply generated_names_NoDup).
  split; [exact Hnd |].
  intros f i Hf Hi.
  set (shop := Mall.generated_shop num_shops_per_floor (Mall.stream g)
                 (Mall.drawn g) f i).
  assert (Hin : In shop (Mall.shops mall)).
  { rewrite Hs. apply in_generated_shops. exists f, i. auto. }
  unfold Mall.get_shop_coordinates.
  change (Mall.shop_name f i) with (name shop).
  rewrite (find_by_name_unique _ _ Hnd Hin). reflexivity.
Qed.

(** X14: between two shops of a freshly generated mall
    [calculate_walking_time] never answers "Shop not found.": it returns
    the Manhattan distance of the two shops, plus 30 when their floors
    differ, whatever the number of floors between them. *)
Theorem generated_walking_time (num_floors num_shops_per_floor : Z) (g : Mall.rng)
  (f1 i1 f2 i2 : Z) :
  (1 <= f1 <= num_floors)%Z -> (1 <= i1 <= num_shops_per_floor)%Z ->
  (1 <= f2 <= num_floors)%Z -> (1 <= i2 <= num_shops_per_floor)%Z ->
  let mall := fst (Mall.generate_mall (Mall.init num_floors num_shops_per_floor) g) in
  let a := Mall.generated_shop num_shops_per_floor (Mall.stream g) (Mall.drawn g) f1 i1 in
  let b := Mall.generated_shop num_shops_per_floor (Mall.stream g) (Mall.drawn g) f2 i2 in
  (f1 <> f2 ->
   Mall.calculate_walking_time mall (Mall.shop_name f1 i1) (Mall.shop_name f2 i2)
   = Mall.Seconds (Rabs (x a - x b) + Rabs (y a - y b) + 30)) /\
  (f1 = f2 ->
   Mall.calculate_walking_time mall (Mall.shop_name f1 i1) (Mall.shop_name f2 i2)
   = Mall.Seconds (Rabs (x a - x b) + Rabs (y a - y b))).
Proof.
  intros Hf1 Hi1 Hf2 Hi2 mall a b.
  unfold Mall.calculate_walking_time, Mall.get_shop_coordinates, mall.
  rewrite (generated_names_found _ _ g f1 i1 Hf1 Hi1).
  rewrite (generated_names_found _ _ g f2 i2 Hf2 Hi2). fold a b.
  change (floor a) with f1. change (floor b) with f2.
  split; intros H.
  - destruct (Z.eqb_spec f1 f2) as [E | _]; [contradiction | reflexivity].
  - destruct (Z.eqb_spec f1 f2) as [_ | N]; [reflexivity | contradiction].
Qed.

(** X15: [calculate_walking_time] does not depend on the order of the two
    names, a number it returns is never negative, and from a shop that is
    found to itself it is 0. *)
Theorem walking_time_symmetric (self : Mall.t) (n1 n2 : string) :
  Mall.calculate_walking_time self n1 n2 = Mall.calculate_walking_time self n2 n1 /\
  (forall r, Mall.calculate_walking_time self n1 n2 = Mall.Seconds r -> 0 <= r) /\
  (forall c, Mall.get_shop_coordinates self n1 = Some c ->
             exists r, Mall.calculate_walking_time self n1 n1 = Mall.Seconds r /\ r = 0).
Proof.
  unfold Mall.calculate_walking_time, Mall.elevator_time.
  split; [| split].
  - destruct (Mall.get_shop_coordinates self n1) as [[[x1 y1] f1] |];
      destruct (Mall.get_shop_coordinates self n2) as [[[x2 y2] f2] |];
      try reflexivity.
    rewrite (Z.eqb_sym f2 f1).
    rewrite (Rabs_minus_sym x2 x1), (Rabs_minus_sym y2 y1). reflexivity.
  - intros r.
    destruct (Mall.get_shop_coordinates self n1) as [[[x1 y1] f1] |];
      destruct (Mall.get_shop_coordinates self n2) as [[[x2 y2] f2] |];
      try discriminate.
    pose proof (Rabs_pos (x1 - x2)) as Hx. pose proof (Rabs_pos (y1 - y2)) as Hy.
    destruct (negb (f1 =? f2)%Z); intros E; inversion E; lra.
  - intros [[x1 y1] f1] ->. rewrite Z.eqb_refl. simpl.
    eexists. split; [reflexivity |].
    rewrite !Rminus_diag, Rabs_R0. lra.
Qed.

Lemma find_app_found {A : Type} (f : A -> bool) (l l' : list A) (a : A) :
  find f l = Some a -> find f (l ++ l') = Some a.
Proof.
  induction l as [| b l IH]; simpl; [discriminate |].
  destruct (f b); [auto | exact IH].
Qed.

Lemma NoDup_app_disjoint {A : Type} (l l' : list A) (a : A) :
  In a l -> In a l' -> ~ NoDup (l ++ l').
Proof.
  intros H H' Hnd. induction l as [| b l IH]; [destruct H |].
  simpl in Hnd. apply NoDup_cons_iff in Hnd. destruct Hnd as [Hnb Hnd].
  destruct H as [-> | H].
  - apply Hnb. apply in_or_app. right. exact H'.
  - apply IH; assumption.
Qed.

(** X16: [generate_mall] never replaces a shop.  A name found before the
    call is found after it with the same answer, the appended shops of
    that name being shadowed; and a second call on a generated mall
    leaves shops that share a name. *)
Theorem generate_mall_again (self : Mall.t) (g : Mall.rng) :
  (forall shop_name c,
      Mall.get_shop_coordinates self shop_name = Some c ->
      Mall.get_shop_coordinates (fst (Mall.generate_mall self g)) shop_name
      = Some c) /\
  (forall g0 : Mall.rng,
      self = fst (Mall.generate_mall
                    (Mall.init (Mall.num_floors self) (Mall.num_shops_per_floor self))
                    g0) ->
      (1 <= Mall.num_floors self)%Z -> (1 <= Mall.num_shops_per_floor self)%Z ->
      ~ NoDup (map name (Mall.shops (fst (Mall.generate_mall self g))))).
Proof.
  split.
  - intros nm c H. unfold Mall.get_shop_coordinates in *.
    rewrite generate_mall_shops.
    destruct (find _ (Mall.shops self)) as [shop |] eqn:E; [| discriminate].
    rewrite (find_app_found _ _ _ _ E). exact H.
  - intros g0 Hself HF HS.
    rewrite generate_mall_shops, map_app.
    apply (NoDup_app_disjoint _ _ (Mall.shop_name 1 1)).
    + rewrite Hself at 1. rewrite generate_mall_shops. simpl.
      apply in_map_iff.
      eexists. split; [| apply in_generated_shops; exists 1%Z, 1%Z;
                         split; [| split; [| reflexivity]]; simpl; lia].
      reflexivity.
    + apply in_map_iff.
      eexists. split; [| apply in_generated_shops; exists 1%Z, 1%Z;
                         split; [| split; [| reflexivity]]; lia].
      reflexivity.
Qed.

Lemma generated_shops_wellformed_witness :
  In (Mall.generated_shop 5 (Mall.stream steady) (Mall.drawn steady) 2 3)
    (Mall.generated_shops (Mall.init 3 5) steady) /\
  (forall k, 0 <= Mall.stream steady k < 1) /\
  0 <= x (Mall.generated_shop 5 (Mall.stream steady) (Mall.drawn steady) 2 3)
  <= 100.
Proof.
  assert (Hin : In (Mall.generated_shop 5 (Mall.stream steady)
                      (Mall.drawn steady) 2 3)
                  (Mall.generated_shops (Mall.init 3 5) steady)).
  { apply in_generated_shops. exists 2%Z, 3%Z. simpl.
    split; [lia |]. split; [lia | reflexivity]. }
  assert (Hs : forall k, 0 <= Mall.stream steady k < 1) by (intros k; simpl; lra).
  split; [exact Hin |]. split; [exact Hs |].
  apply (proj2 (proj2 (generated_shops_wellformed _ _ _ Hin)) Hs).
Defined.

Lemma generated_lookup_witness :
  (1 <= 2 <= 3)%Z /\ (1 <= 3 <= 5)%Z /\
  Mall.get_shop_coordinates script_mall "Shop_2_3"
  = Some (x (Mall.generated_shop 5 (Mall.stream steady) (Mall.drawn steady) 2 3),
          y (Mall.generated_shop 5 (Mall.stream steady) (Mall.drawn steady) 2 3),
          2%Z).
Proof.
  split; [lia |]. split; [lia |].
  change "Shop_2_3"%string with (Mall.shop_name 2 3).
  apply (proj2 (generated_lookup 3 5 steady) 2%Z 3%Z); lia.
Defined.

Lemma generated_walking_time_witness :
  (1 <> 2)%Z /\
  Mall.calculate_walking_time script_mall "Shop_1_1" "Shop_2_3"
  = Mall.Seconds
      (Rabs (x (Mall.generated_shop 5 (Mall.stream steady) (Mall.drawn steady) 1 1)
             - x (Mall.generated_shop 5 (Mall.stream steady) (Mall.drawn steady) 2 3))
       + Rabs (y (Mall.generated_shop 5 (Mall.stream steady) (Mall.drawn steady) 1 1)
               - y (Mall.generated_shop 5 (Mall.stream steady) (Mall.drawn steady) 2 3))
       + 30).
Proof.
  split; [lia |].
  change "Shop_1_1"%string with (Mall.shop_name 1 1).
  change "Shop_2_3"%string with (Mall.shop_name 2 3).
  apply (proj1 (generated_walking_time 3 5 steady 1 1 2 3
                  ltac:(lia) ltac:(lia) ltac:(lia) ltac:(lia))).
  lia.
Defined.

Lemma walking_time_symmetric_witness :
  Mall.get_shop_coordinates small_mall "ground" = Some (0, 0, 0%Z) /\
  exists r,
    Mall.calculate_walking_time small_mall "ground" "ground" = Mall.Seconds r /\
    r = 0.
Proof.
  split; [reflexivity |].
  apply (proj2 (proj2 (walking_time_symmetric small_mall "ground" "ground"))
           (0, 0, 0%Z)).
  reflexivity.
Defined.

Lemma generate_mall_again_witness :
  Mall.get_shop_coordinates small_mall "ground" = Some (0, 0, 0%Z) /\
  Mall.get_shop_coordinates (fst (Mall.generate_mall small_mall steady)) "ground"
  = Some (0, 0, 0%Z).
Proof.
  split; [reflexivity |].
  apply (proj1 (generate_mall_again small_mall steady) "ground"%string).
  reflexivity.
Defined.

(** * The plot of the tour *)

Lemma comprehension_returns {A B : Type} (f : A -> result B) (l : list A) :
  (forall a, In a l -> exists b, f a = Ok b) ->
  exists bs, comprehension f l = Ok bs.
Proof.
  induction l as [| a l IH]; intros H; simpl; [eauto |].
  destruct (H a (or_introl eq_refl)) as (b & ->). simpl.
  destruct IH as (bs & ->); [intros c Hc; apply H; right; exact Hc |].
  simpl. eauto.
Qed.

Lemma py_item_first_last {A : Type} (a : A) (l : list A) :
  py_item (a :: l) 0 = Ok a /\ py_item (a :: l) (-1) = Ok (last l a).
Proof.
  split; [reflexivity |].
  unfold py_item.
  destruct (Z.leb_spec 0 (-1)) as [H | _]; [lia |].
  destruct (Z.leb_spec (- Z.of_nat (length (a :: l))) (-1)) as [_ | H];
    [| simpl length in H; lia].
  replace (Z.to_nat (Z.of_nat (length (a :: l)) + -1)) with (length l)
    by (simpl length; lia).
  apply get_ok. clear. revert a.
  induction l as [| b l IH]; intros a; [reflexivity |].
  rewrite last_cons. simpl length. simpl nth_error. apply IH.
Qed.

Section PlotReturns.

Variable Figure : Type.
Variable go_Figure : Figure.
Variable add_trace : Figure -> list (string * pyval) -> Figure.
Variable update_layout : Figure -> list (string * pyval) -> Figure.
Variable hover_text : Shop -> string.
Variable title_text : R -> string.

(** X17: [view_mall_efficient] raises [IndexError] on an empty list of
    shops, at the subscript [order[0]] of the empty tour, although
    [compute_efficient_path] returns for that list; for every list with
    at least one shop it reaches [fig.show()] without raising. *)
Theorem view_mall_efficient_returns (shops : list Shop) (floor_penalty : R) :
  (shops = [] ->
   compute_efficient_path shops floor_penalty = Ok ([], 0) /\
   view_mall_efficient Figure go_Figure add_trace update_layout hover_text
     title_text shops floor_penalty = Raise IndexError) /\
  (shops <> [] ->
   exists fig,
     view_mall_efficient Figure go_Figure add_trace update_layout hover_text
       title_text shops floor_penalty = Ok fig).
Proof.
  split.
  - intros ->. split; reflexivity.
  - intros Hne.
    destruct (compute_efficient_path_spec shops floor_penalty)
      as (init & order & total & c0 & _ & Hperm & _ & HS & _ & _ & _ & Hrun).
    assert (HP : Permutation order (seq 0 (length shops))).
    { etransitivity; [apply (improves_star_perm _ _ _ _ HS) | exact Hperm]. }
    pose proof (seq_valid shops order HP) as Hv.
    unfold valid_order in Hv. rewrite Forall_forall in Hv.
    assert (Hlen : length order = length shops)
      by (rewrite (Permutation_length HP); apply length_seq).
    destruct order as [| first rest].
    { destruct shops; [congruence | discriminate]. }
    unfold view_mall_efficient. rewrite Hrun. cbn [bind].
    destruct (comprehension_returns
                (fun i => s <- get shops i ;; Ok (PFloat (x s))) (first :: rest))
      as (px & ->).
    { intros i Hi. destruct (get_lt shops i (Hv i Hi)) as (s & ->).
      simpl. eauto. }
    destruct (comprehension_returns
                (fun i => s <- get shops i ;; Ok (PFloat (y s))) (first :: rest))
      as (py & ->).
    { intros i Hi. destruct (get_lt shops i (Hv i Hi)) as (s & ->).
      simpl. eauto. }
    destruct (comprehension_returns
                (fun i => s <- get shops i ;; Ok (PInt (floor s))) (first :: rest))
      as (pz & ->).
    { intros i Hi. destruct (get_lt shops i (Hv i Hi)) as (s & ->).
      simpl. eauto. }
    cbn [bind].
    destruct (py_item_first_last first rest) as [-> ->]. cbn [bind].
    destruct (get_lt shops first (Hv first (or_introl eq_refl))) as (s & ->).
    cbn [bind].
    destruct (get_lt shops (last rest first) (Hv _ (last_in_cons rest first)))
      as (e & ->).
    cbn [bind]. eauto.
Qed.

End PlotReturns.

Lemma view_mall_efficient_returns_witness :
  square <> [] /\
  exists fig,
    view_mall_efficient (list (list (string * pyval))) []
      (fun fig trace => fig ++ [trace]) (fun fig layout => fig ++ [layout])
      name (fun _ => "total"%string) square 50 = Ok fig.
Proof.
  split; [discriminate |].
  apply (proj2 (view_mall_efficient_returns _ _ _ _ _ _ square 50)).
  discriminate.
Defined.
